(** * goc: a Go-to-C emitter over [go/ast]

    A shallow embedding of [main.go] (the tree-walking emitter and its
    [Printer]) and of the expression emitter of the earlier, minimal
    variant of the same program, together with the properties the
    specification states about them.

    Go strings are byte strings and are modelled by [string]; the
    [Printer]'s [bytes.Buffer] is the text accumulated so far; its
    [indent] field is a Go [int], modelled by [Z] with the 64-bit
    wrap-around of [++] written out. *)

From Stdlib Require Import ZArith List Bool Ascii String Lia.
Import ListNotations.
Open Scope string_scope.

Set Warnings "-register-all".

(** ** Strings *)

Module Str.

(** The line break appended by [fmt.Fprintln] and written as [\n] in the
    source's string constants. *)
Definition nl : string := String "010"%char EmptyString.

(** Membership of a byte in a cutset. *)
Fixpoint mem (c : ascii) (set : string) : bool :=
  match set with
  | EmptyString => false
  | String d set' => (c =? d)%char || mem c set'
  end.

(** [strings.TrimRight(s, cutset)]: [s] without its longest suffix made of
    bytes of [cutset].  The cutsets of the program are ASCII, for which Go
    trims byte by byte. *)
Fixpoint TrimRight (s cutset : string) : string :=
  match s with
  | EmptyString => EmptyString
  | String c s' =>
      match TrimRight s' cutset with
      | EmptyString => if mem c cutset then EmptyString else String c EmptyString
      | t => String c t
      end
  end.

(** [strings.Join(elems, sep)]. *)
Fixpoint Join (elems : list string) (sep : string) : string :=
  match elems with
  | [] => ""
  | [e] => e
  | e :: rest => e ++ sep ++ Join rest sep
  end.

(** [n] copies of [s], one after the other. *)
Fixpoint rep (n : nat) (s : string) : string :=
  match n with
  | O => ""
  | S n' => s ++ rep n' s
  end.

(** The last byte of a string, if any. *)
Fixpoint last (s : string) : option ascii :=
  match s with
  | EmptyString => None
  | String c EmptyString => Some c
  | String _ s' => last s'
  end.

(** [s] does not end with a byte of [cutset]. *)
Definition clean_end (s cutset : string) : bool :=
  match last s with
  | None => true
  | Some c => negb (mem c cutset)
  end.

End Str.

(** ** Tokens

    The operator tokens of [go/token] that the parser stores in the [Op] and
    [Tok] fields the emitter reads, with [Token.String]. *)

Inductive Token : Set :=
| ADD | SUB | MUL | QUO | REM
| AND | OR | XOR | SHL | SHR | AND_NOT
| ADD_ASSIGN | SUB_ASSIGN | MUL_ASSIGN | QUO_ASSIGN | REM_ASSIGN
| AND_ASSIGN | OR_ASSIGN | XOR_ASSIGN | SHL_ASSIGN | SHR_ASSIGN | AND_NOT_ASSIGN
| LAND | LOR | ARROW | INC | DEC
| EQL | LSS | GTR | ASSIGN | NOT
| NEQ | LEQ | GEQ | DEFINE | TILDE.

Definition Token_String (t : Token) : string :=
  match t with
  | ADD => "+" | SUB => "-" | MUL => "*" | QUO => "/" | REM => "%"
  | AND => "&" | OR => "|" | XOR => "^" | SHL => "<<" | SHR => ">>"
  | AND_NOT => "&^"
  | ADD_ASSIGN => "+=" | SUB_ASSIGN => "-=" | MUL_ASSIGN => "*="
  | QUO_ASSIGN => "/=" | REM_ASSIGN => "%="
  | AND_ASSIGN => "&=" | OR_ASSIGN => "|=" | XOR_ASSIGN => "^="
  | SHL_ASSIGN => "<<=" | SHR_ASSIGN => ">>=" | AND_NOT_ASSIGN => "&^="
  | LAND => "&&" | LOR => "||" | ARROW => "<-" | INC => "++" | DEC => "--"
  | EQL => "==" | LSS => "<" | GTR => ">" | ASSIGN => "=" | NOT => "!"
  | NEQ => "!=" | LEQ => "<=" | GEQ => ">=" | DEFINE => ":=" | TILDE => "~"
  end.

(** The operators of a [BinaryExpr] (Go's binary operators). *)
Definition is_binary_op (t : Token) : bool :=
  match t with
  | ADD | SUB | MUL | QUO | REM | AND | OR | XOR | SHL | SHR | AND_NOT
  | LAND | LOR | EQL | LSS | GTR | NEQ | LEQ | GEQ => true
  | _ => false
  end.

(** ** Formatted output

    [fmt.Fprintf] on string operands.  Every operand the program passes is a
    string (or prints as one under [%s]: a [*ast.Ident], a byte slice).  The
    model covers what the program's formats can contain: literal text, the
    verb [%s] (and [%v]), [%%], and the error texts [fmt] writes for a lone
    trailing [%], for a verb with no operand left, for a verb that strings do
    not have and for operands left over.  Flags, widths, precisions and
    argument indexes occur in no format of the program and are not
    interpreted. *)

Module Fmt.

Definition percent : ascii := "%"%char.

Definition noVerbString : string := "%!(NOVERB)".

(** Operands left over when the format is exhausted. *)
Definition extra (a : list string) : string :=
  match a with
  | [] => ""
  | _ => "%!(EXTRA " ++ Str.Join (map (fun x => "string=" ++ x) a) ", " ++ ")"
  end.

Definition missingArg (verb : ascii) : string :=
  "%!" ++ String verb "(MISSING)".

Definition badVerb (verb : ascii) (x : string) : string :=
  "%!" ++ String verb ("(string=" ++ x ++ ")").

Definition printArg (x : string) (verb : ascii) : string :=
  if ((verb =? "s") || (verb =? "v"))%char then x else badVerb verb x.

Fixpoint Sprintf (format : string) (a : list string) : string :=
  match format with
  | EmptyString => extra a
  | String c rest =>
      if (c =? percent)%char then
        match rest with
        | EmptyString => noVerbString ++ extra a
        | String verb rest' =>
            if (verb =? percent)%char then String percent (Sprintf rest' a)
            else
              match a with
              | [] => missingArg verb ++ Sprintf rest' []
              | x :: a' => printArg x verb ++ Sprintf rest' a'
              end
        end
      else String c (Sprintf rest a)
  end.

End Fmt.

(** ** The printer *)

(** Go's [int] on the 64-bit platforms the program is built for. *)
Definition wrap_int (z : Z) : Z := ((z + 2 ^ 63) mod 2 ^ 64 - 2 ^ 63)%Z.

Record Printer : Set := mkPrinter { buf : string; indent : Z }.

(** [new(Printer)] and [NewPrinter()]: the zero value. *)
Definition NewPrinter : Printer := mkPrinter "" 0.

(** Writing to the embedded [bytes.Buffer]. *)
Definition Write (p : Printer) (s : string) : Printer :=
  mkPrinter (buf p ++ s) (indent p).

(** [p.String()]. *)
Definition String_ (p : Printer) : string := buf p.

(** [p.Reset()] empties the buffer and leaves [indent] alone. *)
Definition Reset (p : Printer) : Printer := mkPrinter "" (indent p).

Definition P (p : Printer) (f : string) (l : list string) : Printer :=
  Write p (Fmt.Sprintf f l).

(** The loop [for i := 0; i < p.indent; i++] of [Pi]: one unit of four
    spaces per level, none when [indent] is not positive. *)
Fixpoint Pi_loop (n : nat) (p : Printer) : Printer :=
  match n with
  | O => p
  | S n' => Pi_loop n' (Write p "    ")
  end.

Definition Pi (p : Printer) (f : string) (l : list string) : Printer :=
  Write (Pi_loop (Z.to_nat (indent p)) p) (Fmt.Sprintf f l).

Definition Pln (p : Printer) (f : string) (l : list string) : Printer :=
  Write (Pi p f l) Str.nl.

Definition Indent (p : Printer) : Printer :=
  mkPrinter (buf p) (wrap_int (indent p + 1)).

Definition Unindent (p : Printer) : Printer :=
  if (0 <? indent p)%Z then mkPrinter (buf p) (indent p - 1) else p.

(** The indentation prefix of a line written at depth [d]. *)
Definition indentation (d : Z) : string := Str.rep (Z.to_nat d) "    ".

(** ** Outcomes

    An emitter either returns, or the process stops: [log.Fatal] and
    [log.Fatalf] exit with a diagnostic, an index out of range and a nil
    dereference panic.  In both cases [main] never reaches
    [p.WriteTo(os.Stdout)], so nothing of the buffer is output. *)

Inductive Abort : Set :=
| FatalNumberOfReturn    (* log.Fatal("number of return error") *)
| FatalUnsupportedDecl   (* log.Fatalf("unsupport declear type %p", d) *)
| PanicIndex             (* index out of range [0] with length 0 *)
| PanicNil.              (* nil pointer dereference *)

Inductive Res (A : Type) : Type :=
| Ok (a : A)
| Stop (e : Abort).

Arguments Ok {A} a.
Arguments Stop {A} e.

Definition bind {A B : Type} (m : Res A) (k : A -> Res B) : Res B :=
  match m with
  | Ok a => k a
  | Stop e => Stop e
  end.

Notation "x <- m ;; k" := (bind m (fun x => k))
  (at level 61, m at next level, right associativity).

Definition is_fatal {A : Type} (r : Res A) : bool :=
  match r with
  | Stop FatalNumberOfReturn | Stop FatalUnsupportedDecl => true
  | _ => false
  end.

Definition is_ok {A : Type} (r : Res A) : bool :=
  match r with
  | Ok _ => true
  | Stop _ => false
  end.

(** [l[0]] on a Go slice. *)
Definition index0 {A : Type} (l : list A) : Res A :=
  match l with
  | x :: _ => Ok x
  | [] => Stop PanicIndex
  end.

(** ** The syntax tree

    The node kinds of [go/ast] with the fields the emitter reads.  An
    identifier is its [Name]; an interface-typed field that the parser can
    leave [nil] is an [option]; a slice is a [list].  The first eight
    expression kinds are the ones [VisitExpr] has a case for.  A function
    literal carries its signature only: no emitter looks inside one. *)

Inductive Expr : Set :=
| BasicLit (Value : string)
| Ident (Name : string)
| SelectorExpr (X : Expr) (Sel : string)
| BinaryExpr (X : Expr) (Op : Token) (Y : Expr)
| UnaryExpr (Op : Token) (X : Expr)
| StarExpr (X : Expr)
| IndexExpr (X : Expr) (Index : Expr)
| CallExpr (Fun : Expr) (Args : list Expr)
| BadExpr
| Ellipsis (Elt : option Expr)
| FuncLit (Params : list Field) (Results : list Field)
| CompositeLit (Type_ : option Expr) (Elts : list Expr)
| ParenExpr (X : Expr)
| IndexListExpr (X : Expr) (Indices : list Expr)
| SliceExpr (X : Expr) (Low : option Expr) (High : option Expr)
| TypeAssertExpr (X : Expr) (Type_ : option Expr)
| KeyValueExpr (Key : Expr) (Value : Expr)
| ArrayType (Len : option Expr) (Elt : Expr)
| StructType (Fields : list Field)
| FuncType (Params : list Field) (Results : list Field)
| InterfaceType (Methods : list Field)
| MapType (Key : Expr) (Value : Expr)
| ChanType (Value : Expr)
with Field : Set :=
| mkField (Names : list string) (Type_ : Expr).

Definition Field_Names (f : Field) : list string :=
  match f with mkField Names _ => Names end.

Definition Field_Type (f : Field) : Expr :=
  match f with mkField _ Type_ => Type_ end.

(** [FieldList.NumFields]: the number of names, a field without names
    counting for one; a [nil] list, which has none, is the empty list. *)
Fixpoint NumFields (l : list Field) : nat :=
  match l with
  | [] => 0
  | g :: l' =>
      (match List.length (Field_Names g) with O => 1 | m => m end) + NumFields l'
  end.

Inductive Spec : Set :=
| ImportSpec (Path : string)
| ValueSpec (Names : list string) (Type_ : option Expr)
| TypeSpec (Name : string) (Type_ : Expr).

Inductive Stmt : Set :=
| ExprStmt (X : Expr)
| AssignStmt (Lhs : list Expr) (Tok : Token) (Rhs : list Expr)
| DeclStmt (Decl_ : Decl)
| ReturnStmt (Results : list Expr)
| IncDecStmt (X : Expr) (Tok : Token)
| IfStmt (Cond : Expr) (Body : list Stmt) (Else : option Stmt)
| ForStmt (Init : option Stmt) (Cond : option Expr) (Post : option Stmt)
    (Body : list Stmt)
| BlockStmt (List_ : list Stmt)
| EmptyStmt
| SendStmt (Chan : Expr) (Value : Expr)
| GoStmt (Call : Expr)
with Decl : Set :=
| FuncDecl (Name : string) (Params : list Field) (Results : list Field)
    (Body : option (list Stmt))
| GenDecl (Specs : list Spec)
| BadDecl.

Record File : Set := mkFile { Decls : list Decl }.

(** The eight kinds [VisitExpr] of [main.go] dispatches on. *)
Definition recognized (n : Expr) : bool :=
  match n with
  | BasicLit _ | Ident _ | SelectorExpr _ _ | BinaryExpr _ _ _
  | UnaryExpr _ _ | StarExpr _ | IndexExpr _ _ | CallExpr _ _ => true
  | _ => false
  end.

(** ** The expression emitter *)

Fixpoint VisitExpr (p : Printer) (n : Expr) {struct n} : Printer :=
  match n with
  | BasicLit Value => P p "%s" [Value]
  | Ident Name => P p Name []
  | SelectorExpr X Sel =>
      let p := VisitExpr p X in
      P p ".%s" [Sel]
  | BinaryExpr X Op Y =>
      let p := P p "(" [] in
      (* VisitBinExpr(p, t) *)
      let p := VisitExpr p X in
      let p := P p (Token_String Op) [] in
      let p := VisitExpr p Y in
      P p ")" []
  | UnaryExpr Op X =>
      let p := P p (Token_String Op) [] in
      VisitExpr p X
  | StarExpr X =>
      let p := P p "*" [] in
      VisitExpr p X
  | IndexExpr X Index =>
      let p := VisitExpr p X in
      let p := P p "[" [] in
      let p := VisitExpr p Index in
      P p "]" []
  | CallExpr Fun Args =>
      let p := VisitExpr p Fun in
      (* params = append(params, expr(arg)) for each arg *)
      let params := map (fun arg => String_ (VisitExpr NewPrinter arg)) Args in
      P p "(%s)" [Str.Join params ", "]
  | _ => p
  end.

Definition VisitBinExpr (p : Printer) (X : Expr) (Op : Token) (Y : Expr)
  : Printer :=
  let p := VisitExpr p X in
  let p := P p (Token_String Op) [] in
  VisitExpr p Y.

Definition expr (n : Expr) : string :=
  let p := NewPrinter in
  let p := VisitExpr p n in
  String_ p.

(** [VisitExpr] and [expr] on a field that may hold [nil]: the type switch
    has no case for [nil] and writes nothing. *)
Definition VisitExprN (p : Printer) (n : option Expr) : Printer :=
  match n with
  | Some e => VisitExpr p e
  | None => p
  end.

Definition exprN (n : option Expr) : string :=
  String_ (VisitExprN NewPrinter n).

Definition field (n : Field) : Res string :=
  let p := NewPrinter in
  match Field_Type n with
  | StarExpr X =>
      name <- index0 (Field_Names n) ;;
      Ok (String_ (P p "%s* %s" [expr X; name]))
  | Type_ =>
      name <- index0 (Field_Names n) ;;
      Ok (String_ (P p "%s %s" [expr Type_; name]))
  end.

(** [field] over a parameter list, in order: the loop of [VisitFunction]. *)
Fixpoint fields (l : list Field) : Res (list string) :=
  match l with
  | [] => Ok []
  | f :: l' =>
      param <- field f ;;
      paraml <- fields l' ;;
      Ok (param :: paraml)
  end.

(** ** The expression emitter of the minimal variant

    The earlier version of the program has cases for five kinds only. *)

Module Minimal.

Fixpoint VisitExpr (p : Printer) (n : Expr) {struct n} : Printer :=
  match n with
  | BasicLit Value => P p "%s" [Value]
  | Ident Name => P p Name []
  | SelectorExpr X Sel =>
      let p := VisitExpr p X in
      P p ".%s" [Sel]
  | BinaryExpr X Op Y =>
      let p := P p "(" [] in
      let p := VisitExpr p X in
      let p := P p (Token_String Op) [] in
      let p := VisitExpr p Y in
      P p ")" []
  | CallExpr Fun Args =>
      let p := VisitExpr p Fun in
      let params := map (fun arg => String_ (VisitExpr NewPrinter arg)) Args in
      P p "(%s)" [Str.Join params ", "]
  | _ => p
  end.

End Minimal.

(** ** Declarations and statements

    [strconv.Unquote] belongs to Go's library, not to the program: the
    emitters take it as a parameter.  [Unquote s] is the first result of
    [strconv.Unquote(s)], which is empty when the second, dropped by
    [VisitSpec], is an error. *)

Section Emitter.

Variable Unquote : string -> string.

(** The loop over the fields of a struct in [VisitSpec]. *)
Fixpoint VisitFields (p : Printer) (l : list Field) : Res Printer :=
  match l with
  | [] => Ok p
  | f :: l' =>
      s <- field f ;;
      let p := Pln p "%s;" [s] in
      VisitFields p l'
  end.

Definition VisitSpec (p : Printer) (n : Spec) : Res Printer :=
  match n with
  | ValueSpec Names Type_ =>
      match Type_ with
      | Some (ArrayType Len Elt) =>
          name <- index0 Names ;;
          Ok (Pln p "%s %s[%s];" [expr Elt; name; exprN Len])
      | Some (StarExpr X) =>
          name <- index0 Names ;;
          Ok (Pln p "%s* %s;" [expr X; name])
      | _ =>
          name <- index0 Names ;;
          Ok (Pln p "%s %s;" [exprN Type_; name])
      end
  | ImportSpec Path =>
      let path := Unquote Path in
      Ok (Pln p "#include <%s.h>" [path])
  | TypeSpec Name Type_ =>
      match Type_ with
      | Ident tName => Ok (Pln p "typedef %s %s;" [tName; Name])
      | StructType Fields =>
          let p := Pln p "struct %s {" [Name] in
          let p := Indent p in
          p <- VisitFields p Fields ;;
          let p := Unindent p in
          Ok (Pln p "};" [])
      | _ => Ok p
      end
  end.

(** [VisitBlockStmt] and [VisitFunction] call back into [VisitStmt]; they are
    written over the visitor they call, which the recursive definition below
    instantiates with itself. *)

Definition VisitBlockStmt_over (visit : Printer -> Stmt -> Res Printer)
  (p : Printer) (List_ : list Stmt) : Res Printer :=
  let p := P p ("{" ++ Str.nl) [] in
  let p := Indent p in
  p <- (fix range (p : Printer) (l : list Stmt) {struct l} : Res Printer :=
          match l with
          | [] => Ok p
          | elem :: l' => p <- visit p elem ;; range p l'
          end) p List_ ;;
  let p := Unindent p in
  Ok (Pln p "}" []).

Definition VisitFunction_over
  (visitBlock : Printer -> list Stmt -> Res Printer)
  (p : Printer) (Name : string) (Params Results : list Field)
  (Body : option (list Stmt)) : Res Printer :=
  if Nat.ltb 1 (NumFields Results) then Stop FatalNumberOfReturn
  else
    let funcname := Name in
    rettyp <- (if Nat.ltb 0 (NumFields Results)
               then f <- index0 Results ;; Ok (expr (Field_Type f))
               else Ok "void") ;;
    params <- (if negb (Nat.eqb (NumFields Params) 0)
               then paraml <- fields Params ;; Ok (Str.Join paraml ", ")
               else Ok "") ;;
    let p := Pln p "%s %s(%s)" [rettyp; funcname; params] in
    match Body with
    | Some List_ => visitBlock p List_
    | None => Stop PanicNil
    end.

Fixpoint VisitStmt (p : Printer) (n : Stmt) {struct n} : Res Printer :=
  match n with
  | ExprStmt X => Ok (Pln p "%s;" [expr X])
  | AssignStmt Lhs Tok Rhs =>
      l <- index0 Lhs ;;
      r <- index0 Rhs ;;
      Ok (Pln p "%s %s %s;" [expr l; Token_String Tok; expr r])
  | DeclStmt Decl_ => VisitDecl p Decl_
  | ReturnStmt Results =>
      r <- index0 Results ;;
      Ok (Pln p "return %s;" [expr r])
  | IncDecStmt X Tok =>
      let p := VisitExpr p X in
      Ok (Pln p "%s;" [Token_String Tok])
  | IfStmt Cond Body Else =>
      let p := Pi p "if (" [] in
      let p := VisitExpr p Cond in
      let p := P p ") " [] in
      p <- VisitBlockStmt_over (fun p s => VisitStmt p s) p Body ;;
      match Else with
      | Some (IfStmt Cond' Body' _) =>
          let p := Pi p "else if(%s) " [expr Cond'] in
          VisitBlockStmt_over (fun p s => VisitStmt p s) p Body'
      | Some (BlockStmt List_) =>
          let p := Pln p "else" [] in
          VisitBlockStmt_over (fun p s => VisitStmt p s) p List_
      | _ => Ok p
      end
  | ForStmt Init Cond Post Body =>
      let pp := NewPrinter in
      pp <- match Init with
            | Some s => VisitStmt pp s
            | None => Ok pp
            end ;;
      let init := Str.TrimRight (String_ pp) Str.nl in
      let pp := Reset pp in
      pp <- match Post with
            | Some s => VisitStmt pp s
            | None => Ok pp
            end ;;
      let post := Str.TrimRight (String_ pp) (";" ++ Str.nl) in
      let p := Pi p "for (%s %s; %s) " [init; exprN Cond; post] in
      VisitBlockStmt_over (fun p s => VisitStmt p s) p Body
  | _ => Ok p
  end
with VisitDecl (p : Printer) (n : Decl) {struct n} : Res Printer :=
  match n with
  | FuncDecl Name Params Results Body =>
      VisitFunction_over
        (fun p l => VisitBlockStmt_over (fun p s => VisitStmt p s) p l)
        p Name Params Results Body
  | GenDecl Specs =>
      s <- index0 Specs ;;
      VisitSpec p s
  | BadDecl => Stop FatalUnsupportedDecl
  end.

Definition VisitBlockStmt (p : Printer) (List_ : list Stmt) : Res Printer :=
  VisitBlockStmt_over VisitStmt p List_.

Definition VisitFunction (p : Printer) (Name : string)
  (Params Results : list Field) (Body : option (list Stmt)) : Res Printer :=
  VisitFunction_over VisitBlockStmt p Name Params Results Body.

(** The loop of [VisitBlockStmt]. *)
Fixpoint VisitStmts (p : Printer) (l : list Stmt) : Res Printer :=
  match l with
  | [] => Ok p
  | elem :: l' => p <- VisitStmt p elem ;; VisitStmts p l'
  end.

(** [VisitStmt] on a statement field that may hold [nil]. *)
Definition VisitStmtN (p : Printer) (n : option Stmt) : Res Printer :=
  match n with
  | Some s => VisitStmt p s
  | None => Ok p
  end.

Fixpoint VisitDecls (p : Printer) (l : list Decl) : Res Printer :=
  match l with
  | [] => Ok p
  | decl :: l' => p <- VisitDecl p decl ;; VisitDecls p l'
  end.

Definition VisitFile (p : Printer) (n : File) : Res Printer :=
  VisitDecls p (Decls n).

(** The emission pass of [main]: a new printer, [VisitFile], and the buffer
    written to the standard output. *)
Definition emit (f : File) : Res string :=
  let p := NewPrinter in
  p <- VisitFile p f ;;
  Ok (String_ p).

End Emitter.

(** ** Running the emitters

    [strconv.Unquote] on the import paths of the examples: a double-quoted
    literal whose content has no backslash, no quote and no line break is
    its content (for ASCII content, which is valid UTF-8); what this function
    does on any other input is not used. *)

Definition dquote : ascii := "034"%char.

Fixpoint plain_body (s : string) : option string :=
  match s with
  | EmptyString => None
  | String c EmptyString => if (c =? dquote)%char then Some "" else None
  | String c s' =>
      if ((c =? dquote) || (c =? "\") || (c =? "010"))%char then None
      else match plain_body s' with
           | Some t => Some (String c t)
           | None => None
           end
  end.

Definition Unquote_plain (s : string) : string :=
  match s with
  | String c s' =>
      if (c =? dquote)%char
      then match plain_body s' with Some t => t | None => "" end
      else ""
  | EmptyString => ""
  end.

(** ** Notions used in the statements *)

(** What an emitter returns on [p], from what it returns on the printer of
    the same depth whose buffer is empty: the text is appended to [p]'s. *)
Definition frame (p : Printer) (r : Res Printer) : Res Printer :=
  match r with
  | Ok q => Ok (mkPrinter (buf p ++ buf q) (indent q))
  | Stop e => Stop e
  end.

(** The printer of depth [d] with an empty buffer. *)
Definition blank (d : Z) : Printer := mkPrinter "" d.

(** An emitter is framed when the text already in the buffer has no part in
    what it does: it appends what it writes on an empty buffer. *)
Definition framed (f : Printer -> Res Printer) : Prop :=
  forall p, f p = frame p (f (blank (indent p))).

(** The statements of an [else] branch that [VisitStmt] emits. *)
Definition else_body (e : option Stmt) : list Stmt :=
  match e with
  | Some (IfStmt _ Body _) => Body
  | Some (BlockStmt List_) => List_
  | _ => []
  end.

(** Statements without statements or declarations inside. *)
Definition childless (s : Stmt) : bool :=
  match s with
  | DeclStmt _ | IfStmt _ _ _ | ForStmt _ _ _ _ | BlockStmt _ => false
  | _ => true
  end.

(** The nesting depth of a statement and of a declaration: a bound on the
    number of [Indent]s that are open at once while it is emitted. *)
Fixpoint nest (n : Stmt) : nat :=
  match n with
  | DeclStmt d => nestD d
  | IfStmt _ Body Else =>
      Nat.max (S (fold_right (fun s m => Nat.max (nest s) m) 0 Body))
              (match Else with Some s => nest s | None => 0 end)
  | ForStmt Init _ Post Body =>
      Nat.max (match Init with Some s => nest s | None => 0 end)
        (Nat.max (match Post with Some s => nest s | None => 0 end)
                 (S (fold_right (fun s m => Nat.max (nest s) m) 0 Body)))
  | BlockStmt List_ => S (fold_right (fun s m => Nat.max (nest s) m) 0 List_)
  | _ => 0
  end
with nestD (n : Decl) : nat :=
  match n with
  | FuncDecl _ _ _ (Some List_) =>
      S (fold_right (fun s m => Nat.max (nest s) m) 0 List_)
  | FuncDecl _ _ _ None => 0
  | GenDecl _ => 1
  | BadDecl => 0
  end.

Definition nests (l : list Stmt) : nat :=
  fold_right (fun s m => Nat.max (nest s) m) 0 l.

Definition nestDs (l : list Decl) : nat :=
  fold_right (fun d m => Nat.max (nestD d) m) 0 l.

(** The depths at which [Indent] does not wrap around while a tree of
    nesting depth [n] is emitted. *)
Definition fits (p : Printer) (n : nat) : Prop :=
  (0 <= indent p /\ indent p + Z.of_nat n < 2 ^ 63)%Z.

(** An emitter is balanced at nesting depth [n] when it returns at the depth
    it was called at, from any depth that fits [n]. *)
Definition balanced (n : nat) (f : Printer -> Res Printer) : Prop :=
  forall p p', fits p n -> f p = Ok p' -> indent p' = indent p.


(** The text of a statement that ends in [;]: what it writes on one line
    between the indentation and the terminator.  For [IncDecStmt] this is
    the line written at depth 0, where the indentation is empty. *)
Definition simple_text (s : Stmt) : option string :=
  match s with
  | ExprStmt X => Some (expr X)
  | AssignStmt (l :: _) Tok (r :: _) =>
      Some (expr l ++ " " ++ Token_String Tok ++ " " ++ expr r)
  | IncDecStmt X Tok => Some (expr X ++ Token_String Tok)
  | _ => None
  end.

(** The fixed loop [for i := 0; i < n; i++] of the specification. *)
Definition for_i_n (Body : list Stmt) : Stmt :=
  ForStmt (Some (AssignStmt [Ident "i"] DEFINE [BasicLit "0"]))
          (Some (BinaryExpr (Ident "i") LSS (Ident "n")))
          (Some (IncDecStmt (Ident "i") INC))
          Body.

(** The parameter list of a function header, as [VisitFunction] builds
    it. *)
Definition params_text (Params : list Field) : Res string :=
  if negb (Nat.eqb (NumFields Params) 0)
  then paraml <- fields Params ;; Ok (Str.Join paraml ", ")
  else Ok "".

(** ** Further notions *)

(** The line break as a byte. *)
Definition nlc : ascii := "010"%char.

(** No text that the expression emitter copies from the tree (literal
    values, names, selectors) holds a line break.  A raw string literal can
    hold one. *)
Fixpoint nl_free (n : Expr) : bool :=
  match n with
  | BasicLit Value => negb (Str.mem nlc Value)
  | Ident Name => negb (Str.mem nlc Name)
  | SelectorExpr X Sel => nl_free X && negb (Str.mem nlc Sel)
  | BinaryExpr X _ Y => nl_free X && nl_free Y
  | UnaryExpr _ X => nl_free X
  | StarExpr X => nl_free X
  | IndexExpr X Index => nl_free X && nl_free Index
  | CallExpr Fun Args => nl_free Fun && forallb nl_free Args
  | _ => true
  end.

(** The statement kinds [VisitStmt] has no case for. *)
Definition skipped (s : Stmt) : bool :=
  match s with
  | BlockStmt _ | EmptyStmt | SendStmt _ _ | GoStmt _ => true
  | _ => false
  end.

(** The [else] branches the [if] case has no case for: none, or a statement
    that is neither an [if] nor a block. *)
Definition else_ignored (e : option Stmt) : bool :=
  match e with
  | Some (IfStmt _ _ _) | Some (BlockStmt _) => false
  | _ => true
  end.

(** The declared types of a value that take the default case of
    [VisitSpec]: no type, or one that is neither an array nor a pointer. *)
Definition plain_type (T : option Expr) : bool :=
  match T with
  | Some (ArrayType _ _) | Some (StarExpr _) => false
  | _ => true
  end.

(** The underlying types of a type declaration [VisitSpec] has a case for:
    a name and a struct. *)
Definition declarable (T : Expr) : bool :=
  match T with
  | Ident _ | StructType _ => true
  | _ => false
  end.

(** The lines of the fields of a struct at depth [d], from their texts. *)
Fixpoint field_lines (d : Z) (texts : list string) : string :=
  match texts with
  | [] => ""
  | t :: texts' =>
      indentation d ++ t ++ ";" ++ Str.nl ++ field_lines d texts'
  end.

(** The return type of a function header, for a result list of at most
    one result. *)
Definition result_text (Results : list Field) : string :=
  match Results with
  | [] => "void"
  | f :: _ => expr (Field_Type f)
  end.

(** ** The statement and declaration emitters of the minimal variant

    The earlier version of the program emits a block statement by statement
    inside [VisitBlockStmt]: a statement is rendered into a printer of its own
    and written as one line when that printer holds something; [if] and
    [for] are written straight to the output.  Two of its steps are type
    assertions, which panic on a value of another type. *)

Module MinimalEmitter.

(** The ways this variant ends: it returns, it stops as the emitters of
    [main.go] do, or a type assertion fails (a panic on the interface
    conversion). *)
Inductive Out (A : Type) : Type :=
| Ret (a : A)
| Halt (e : Abort)
| Conversion.

Arguments Ret {A} a.
Arguments Halt {A} e.
Arguments Conversion {A}.

Definition andThen {A B : Type} (m : Out A) (k : A -> Out B) : Out B :=
  match m with
  | Ret a => k a
  | Halt e => Halt e
  | Conversion => Conversion
  end.

Notation "x <~ m ;; k" := (andThen m (fun x => k))
  (at level 61, m at next level, right associativity).

Definition is_ret {A : Type} (r : Out A) : bool :=
  match r with
  | Ret _ => true
  | _ => false
  end.

(** [l[0]] on a Go slice. *)
Definition at0 {A : Type} (l : list A) : Out A :=
  match l with
  | x :: _ => Ret x
  | [] => Halt PanicIndex
  end.

(** The name of [n] asserted to be an identifier, as in [f.Type] asserted
    to [ast.Ident] and its [Name]. *)
Definition ident_name (n : Expr) : Out string :=
  match n with
  | Ident Name => Ret Name
  | _ => Conversion
  end.

(** The text [Minimal.VisitExpr] writes for an expression, and for an
    expression field that may hold [nil]. *)
Definition VisitExprN (p : Printer) (n : option Expr) : Printer :=
  match n with
  | Some e => Minimal.VisitExpr p e
  | None => p
  end.

Definition fragment (n : Expr) : string :=
  String_ (Minimal.VisitExpr NewPrinter n).

Definition fragmentN (n : option Expr) : string :=
  String_ (VisitExprN NewPrinter n).

(** The end of the loop body of [VisitBlockStmt]: the statement's own
    printer [sp] is written as a line when it is not empty. *)
Definition line (p sp : Printer) (sem : string) : Printer :=
  if Nat.ltb 0 (String.length (buf sp))
  then Pln p "%s%s" [buf sp; sem]
  else p.

Section Emitter.

Variable Unquote : string -> string.

Definition VisitSpec (p : Printer) (n : Spec) : Out Printer :=
  match n with
  | ValueSpec Names Type_ =>
      let p := VisitExprN p Type_ in
      let p := P p " " [] in
      name <~ at0 Names ;;
      Ret (P p name [])
  | ImportSpec Path =>
      let path := Unquote Path in
      Ret (Pln p "#include <%s.h>" [path])
  | _ => Ret p
  end.

(** The loop over the parameters in [VisitFunction]. *)
Fixpoint params (l : list Field) : Out (list string) :=
  match l with
  | [] => Ret []
  | f :: l' =>
      tname <~ ident_name (Field_Type f) ;;
      name <~ at0 (Field_Names f) ;;
      let param := tname ++ " " ++ name in
      paraml <~ params l' ;;
      Ret (param :: paraml)
  end.

Definition VisitBlockStmt_over (visit : Printer -> Stmt -> Out Printer)
  (p : Printer) (List_ : list Stmt) : Out Printer :=
  let p := Pln p "{" [] in
  let p := Indent p in
  p <~ (fix range (p : Printer) (l : list Stmt) {struct l} : Out Printer :=
          match l with
          | [] => Ret p
          | elem :: l' => p <~ visit p elem ;; range p l'
          end) p List_ ;;
  let p := Unindent p in
  Ret (Pln p "}" []).

Definition VisitFunction_over
  (visitBlock : Printer -> list Stmt -> Out Printer)
  (p : Printer) (Name : string) (Params Results : list Field)
  (Body : option (list Stmt)) : Out Printer :=
  if Nat.ltb 1 (NumFields Results) then Halt FatalNumberOfReturn
  else
    let funcname := Name in
    rettyp <~ (if Nat.ltb 0 (NumFields Results)
               then f <~ at0 Results ;; ident_name (Field_Type f)
               else Ret "void") ;;
    params <~ (if negb (Nat.eqb (NumFields Params) 0)
               then paraml <~ params Params ;; Ret (Str.Join paraml ", ")
               else Ret "") ;;
    let p := Pln p "%s %s(%s)" [rettyp; funcname; params] in
    match Body with
    | Some List_ => visitBlock p List_
    | None => Halt PanicNil
    end.

(** One turn of the loop of [VisitBlockStmt], on the statement [elem]. *)
Fixpoint VisitElem (p : Printer) (elem : Stmt) {struct elem} : Out Printer :=
  let sem := ";" in
  let sp := NewPrinter in
  match elem with
  | ExprStmt X =>
      let sp := Minimal.VisitExpr sp X in
      Ret (line p sp sem)
  | AssignStmt Lhs Tok Rhs =>
      l <~ at0 Lhs ;;
      let sp := Minimal.VisitExpr sp l in
      let sp := P sp " %s " [Token_String Tok] in
      r <~ at0 Rhs ;;
      let sp := Minimal.VisitExpr sp r in
      Ret (line p sp sem)
  | DeclStmt Decl_ =>
      sp <~ VisitDecl sp Decl_ ;;
      Ret (line p sp sem)
  | ReturnStmt Results =>
      let sp := P sp "return " [] in
      r <~ at0 Results ;;
      let sp := Minimal.VisitExpr sp r in
      Ret (line p sp sem)
  | IfStmt Cond Body Else =>
      let sem := "" in
      let p := Pi p "if (" [] in
      let p := Minimal.VisitExpr p Cond in
      let p := P p (")" ++ Str.nl) [] in
      p <~ VisitBlockStmt_over (fun p s => VisitElem p s) p Body ;;
      p <~ match Else with
           | Some s =>
               let p := Pln p "else" [] in
               match s with
               | BlockStmt List_ =>
                   VisitBlockStmt_over (fun p s => VisitElem p s) p List_
               | _ => Conversion
               end
           | None => Ret p
           end ;;
      Ret (line p sp sem)
  | ForStmt _ Cond _ Body =>
      let sem := "" in
      let p := Pi p "while (" [] in
      let p := VisitExprN p Cond in
      let p := P p (")" ++ Str.nl) [] in
      p <~ VisitBlockStmt_over (fun p s => VisitElem p s) p Body ;;
      Ret (line p sp sem)
  | _ => Ret (line p sp sem)
  end
with VisitDecl (p : Printer) (n : Decl) {struct n} : Out Printer :=
  match n with
  | FuncDecl Name Params Results Body =>
      VisitFunction_over
        (fun p l => VisitBlockStmt_over (fun p s => VisitElem p s) p l)
        p Name Params Results Body
  | GenDecl Specs =>
      s <~ at0 Specs ;;
      VisitSpec p s
  | BadDecl => Halt FatalUnsupportedDecl
  end.

Definition VisitBlockStmt (p : Printer) (List_ : list Stmt) : Out Printer :=
  VisitBlockStmt_over VisitElem p List_.

Definition VisitFunction (p : Printer) (Name : string)
  (Params Results : list Field) (Body : option (list Stmt)) : Out Printer :=
  VisitFunction_over VisitBlockStmt p Name Params Results Body.


Fixpoint VisitDecls (p : Printer) (l : list Decl) : Out Printer :=
  match l with
  | [] => Ret p
  | decl :: l' => p <~ VisitDecl p decl ;; VisitDecls p l'
  end.

Definition VisitFile (p : Printer) (n : File) : Out Printer :=
  VisitDecls p (Decls n).

Definition emit (f : File) : Out string :=
  let p := NewPrinter in
  p <~ VisitFile p f ;;
  Ret (String_ p).

End Emitter.

End MinimalEmitter.

(** The expressions made of the five kinds the minimal variant has a case
    for. *)
Fixpoint minimal_kinds (n : Expr) : bool :=
  match n with
  | BasicLit _ | Ident _ => true
  | SelectorExpr X _ => minimal_kinds X
  | BinaryExpr X _ Y => minimal_kinds X && minimal_kinds Y
  | CallExpr Fun Args => minimal_kinds Fun && forallb minimal_kinds Args
  | _ => false
  end.


(** * Properties *)

(** ** Strings *)

Module StrFacts.
Import Str.

Lemma app_nil_r (s : string) : s ++ "" = s.
Proof. induction s as [|c s IH]; simpl; [reflexivity | now rewrite IH]. Qed.

Lemma app_assoc (s t u : string) : (s ++ t) ++ u = s ++ (t ++ u).
Proof. induction s as [|c s IH]; simpl; [reflexivity | now rewrite IH]. Qed.

Lemma app_inv_head (s t u : string) : s ++ t = s ++ u -> t = u.
Proof. induction s as [|c s IH]; simpl; [easy | intros [= H]; auto]. Qed.

Lemma length_app (s t : string) :
  String.length (s ++ t) = String.length s + String.length t.
Proof. induction s as [|c s IH]; simpl; [reflexivity | now rewrite IH]. Qed.

Lemma rep_plus (n m : nat) (s : string) : rep (n + m) s = rep n s ++ rep m s.
Proof.
  induction n as [|n IH]; simpl; [reflexivity|].
  now rewrite IH, app_assoc.
Qed.

Lemma rep_snoc (n : nat) (s : string) : rep (S n) s = rep n s ++ s.
Proof.
  replace (S n) with (n + 1) by lia.
  rewrite rep_plus. simpl. now rewrite app_nil_r.
Qed.

(** Both sides of an equation between texts, as right-nested appends. *)
Ltac str_norm :=
  repeat (progress (cbn [append]; rewrite ?app_assoc, ?app_nil_r)).

(** A suffix that survives trimming protects everything before it. *)
Lemma TrimRight_app_keep (s t cutset : string) :
  TrimRight t cutset <> "" ->
  TrimRight (s ++ t) cutset = s ++ TrimRight t cutset.
Proof.
  intros Ht. induction s as [|c s IH]; simpl; [reflexivity|].
  rewrite IH. destruct (s ++ TrimRight t cutset) eqn:E; [|reflexivity].
  destruct s; simpl in E; [contradiction | discriminate].
Qed.

(** A suffix that is trimmed away leaves the trimming of what precedes. *)
Lemma TrimRight_app_drop (s t cutset : string) :
  TrimRight t cutset = "" ->
  TrimRight (s ++ t) cutset = TrimRight s cutset.
Proof.
  intros Ht. induction s as [|c s IH]; simpl; [assumption|].
  now rewrite IH.
Qed.

Lemma TrimRight_clean (s cutset : string) :
  clean_end s cutset = true -> TrimRight s cutset = s.
Proof.
  unfold clean_end. induction s as [|c s IH]; simpl; [reflexivity|].
  destruct s as [|d s'].
  - simpl. intros H. destruct (mem c cutset); [discriminate | reflexivity].
  - intros H. rewrite (IH H).
    reflexivity.
Qed.

(** What the [for] header does to a rendered line [t;\n]. *)
Lemma TrimRight_line_init (t : string) :
  TrimRight (t ++ ";" ++ nl) nl = t ++ ";".
Proof. now rewrite TrimRight_app_keep. Qed.

Lemma TrimRight_line_post (t : string) :
  TrimRight (t ++ ";" ++ nl) (";" ++ nl) = TrimRight t (";" ++ nl).
Proof. now rewrite TrimRight_app_drop. Qed.

End StrFacts.

(** ** The printer *)

Module PrinterFacts.
Import Str StrFacts.

Lemma Write_Write (p : Printer) (s t : string) :
  Write (Write p s) t = Write p (s ++ t).
Proof. unfold Write; simpl. now rewrite app_assoc. Qed.

Lemma Write_empty (p : Printer) : Write p "" = p.
Proof. destruct p; unfold Write; simpl. now rewrite app_nil_r. Qed.

Lemma Pi_loop_Write (n : nat) (p : Printer) :
  Pi_loop n p = Write p (rep n "    ").
Proof.
  revert p. induction n as [|n IH]; intros p.
  - simpl. now rewrite Write_empty.
  - simpl Pi_loop. rewrite IH, Write_Write. reflexivity.
Qed.

Lemma P_Write (p : Printer) (f : string) (l : list string) :
  P p f l = Write p (Fmt.Sprintf f l).
Proof. reflexivity. Qed.

Lemma Pi_Write (p : Printer) (f : string) (l : list string) :
  Pi p f l = Write p (indentation (indent p) ++ Fmt.Sprintf f l).
Proof. unfold Pi. now rewrite Pi_loop_Write, Write_Write. Qed.

Lemma Pln_Write (p : Printer) (f : string) (l : list string) :
  Pln p f l = Write p (indentation (indent p) ++ Fmt.Sprintf f l ++ nl).
Proof. unfold Pln. now rewrite Pi_Write, Write_Write, app_assoc. Qed.

Lemma indent_Write (p : Printer) (s : string) : indent (Write p s) = indent p.
Proof. reflexivity. Qed.

Lemma buf_Write (p : Printer) (s : string) : buf (Write p s) = buf p ++ s.
Proof. reflexivity. Qed.

(** A format without [%] and without operands is written as it is. *)
Lemma Sprintf_plain (f : string) :
  mem Fmt.percent f = false -> Fmt.Sprintf f [] = f.
Proof.
  induction f as [|c f IH]; cbn [Fmt.Sprintf mem Fmt.extra]; [reflexivity|].
  rewrite (Ascii.eqb_sym Fmt.percent c).
  destruct (c =? Fmt.percent)%char; cbn [orb]; [discriminate|].
  intros H. now rewrite IH.
Qed.

(** The formats of the program, on their operands. *)
Lemma Sprintf_s (a : string) : Fmt.Sprintf "%s" [a] = a.
Proof. simpl. apply app_nil_r. Qed.

Lemma Sprintf_s_semi (a : string) : Fmt.Sprintf "%s;" [a] = a ++ ";".
Proof. reflexivity. Qed.

Lemma Sprintf_assign (a b c : string) :
  Fmt.Sprintf "%s %s %s;" [a; b; c] = a ++ " " ++ b ++ " " ++ c ++ ";".
Proof. reflexivity. Qed.

Lemma Sprintf_return (a : string) :
  Fmt.Sprintf "return %s;" [a] = "return " ++ a ++ ";".
Proof. reflexivity. Qed.

Lemma Sprintf_for (a b c : string) :
  Fmt.Sprintf "for (%s %s; %s) " [a; b; c]
  = "for (" ++ a ++ " " ++ b ++ "; " ++ c ++ ") ".
Proof. reflexivity. Qed.

Lemma Sprintf_else_if (a : string) :
  Fmt.Sprintf "else if(%s) " [a] = "else if(" ++ a ++ ") ".
Proof. reflexivity. Qed.

Lemma Sprintf_func (a b c : string) :
  Fmt.Sprintf "%s %s(%s)" [a; b; c] = a ++ " " ++ b ++ "(" ++ c ++ ")".
Proof. reflexivity. Qed.

Lemma Sprintf_call (a : string) : Fmt.Sprintf "(%s)" [a] = "(" ++ a ++ ")".
Proof. reflexivity. Qed.

Lemma Sprintf_sel (a : string) : Fmt.Sprintf ".%s" [a] = "." ++ a.
Proof. simpl. now rewrite app_nil_r. Qed.

End PrinterFacts.

(** ** The expression emitter *)

Module ExprFacts.
Import Str StrFacts PrinterFacts.

Ltac norm :=
  repeat (progress rewrite ?P_Write, ?Pi_Write, ?Pln_Write, ?Write_Write,
            ?indent_Write, ?buf_Write).

(** [VisitExpr] appends to the buffer the text [expr] returns and leaves the
    depth alone. *)
Lemma VisitExpr_Write (n : Expr) :
  forall p, VisitExpr p n = Write p (expr n).
Proof.
  induction n; intros p; unfold expr, String_; cbn [VisitExpr];
    repeat match goal with
    | IH : forall p, VisitExpr p ?X = _ |- _ => rewrite !IH; clear IH
    end; norm.
  all: try (cbn [buf NewPrinter append]; rewrite ?app_assoc; try reflexivity).
  all: now rewrite Write_empty.
Qed.

Lemma VisitExprN_Write (n : option Expr) (p : Printer) :
  VisitExprN p n = Write p (exprN n).
Proof.
  destruct n as [e|]; unfold exprN, String_; simpl.
  - rewrite !VisitExpr_Write. norm. reflexivity.
  - now rewrite Write_empty.
Qed.

(** The case of a binary expression is [VisitBinExpr] between the two
    parentheses. *)
Lemma VisitExpr_BinaryExpr (p : Printer) (X Y : Expr) (Op : Token) :
  VisitExpr p (BinaryExpr X Op Y)
  = P (VisitBinExpr (P p "(" []) X Op Y) ")" [].
Proof. reflexivity. Qed.

Lemma expr_BinaryExpr (X Y : Expr) (Op : Token) :
  expr (BinaryExpr X Op Y)
  = "(" ++ expr X ++ Fmt.Sprintf (Token_String Op) [] ++ expr Y ++ ")".
Proof.
  unfold expr, String_. cbn [VisitExpr]. rewrite !VisitExpr_Write. norm.
  reflexivity.
Qed.

(** Every binary operator but [%] is free of [%]: as a format, it is
    written as it is. *)
Lemma Sprintf_binary_op (Op : Token) :
  is_binary_op Op = true -> Op <> REM ->
  Fmt.Sprintf (Token_String Op) [] = Token_String Op.
Proof. destruct Op; intros H1 H2; try reflexivity; try discriminate. congruence. Qed.

End ExprFacts.

(** ** Induction over statements and declarations

    The induction hypotheses reach the statements of nested blocks,
    including the block of an [else] branch, which [VisitStmt] emits
    without visiting the branch itself. *)

Section StmtInduction.

Variable PS : Stmt -> Prop.
Variable PD : Decl -> Prop.

Hypothesis HLeaf : forall s, childless s = true -> PS s.
Hypothesis HDeclStmt : forall d, PD d -> PS (DeclStmt d).
Hypothesis HIf : forall c b e,
  Forall PS b -> Forall PS (else_body e) -> PS (IfStmt c b e).
Hypothesis HFor : forall i c po b,
  match i with Some s => PS s | None => True end ->
  match po with Some s => PS s | None => True end ->
  Forall PS b -> PS (ForStmt i c po b).
Hypothesis HBlock : forall l, Forall PS l -> PS (BlockStmt l).
Hypothesis HFunc : forall n ps rs b,
  match b with Some l => Forall PS l | None => True end ->
  PD (FuncDecl n ps rs b).
Hypothesis HGen : forall specs, PD (GenDecl specs).
Hypothesis HBad : PD BadDecl.

Lemma Stmt_nested_ind : forall s, PS s.
Proof.
  fix FS 1. intros s.
  pose (FL := fix FL (l : list Stmt) : Forall PS l :=
          match l with
          | [] => Forall_nil PS
          | x :: l' => Forall_cons x (FS x) (FL l')
          end).
  destruct s as [X|Lhs Tok Rhs|d|Rs|X Tok|c b e|i c po b|l| |ch v|call].
  - now apply HLeaf.
  - now apply HLeaf.
  - apply HDeclStmt. destruct d as [n ps rs [l|]|specs|].
    + apply HFunc, FL.
    + now apply HFunc.
    + apply HGen.
    + apply HBad.
  - now apply HLeaf.
  - now apply HLeaf.
  - apply HIf; [apply FL|].
    destruct e as [[X|Lhs Tok Rhs|d|Rs|X Tok|c' b' e'|i c' po b'|l| |ch v|call]|];
      simpl; try constructor; apply FL.
  - apply HFor; [destruct i; [apply FS | exact I]
                | destruct po; [apply FS | exact I] | apply FL].
  - apply HBlock, FL.
  - now apply HLeaf.
  - now apply HLeaf.
  - now apply HLeaf.
Qed.

Lemma Decl_nested_ind : forall d, PD d.
Proof.
  intros [n ps rs [l|]|specs|].
  - apply HFunc. induction l; constructor; [apply Stmt_nested_ind | assumption].
  - now apply HFunc.
  - apply HGen.
  - apply HBad.
Qed.

End StmtInduction.

(** ** Framing *)

Module FrameFacts.
Import Str StrFacts PrinterFacts.

Lemma frame_frame (p q : Printer) (r : Res Printer) :
  frame p (frame q r) = frame (mkPrinter (buf p ++ buf q) (indent q)) r.
Proof. destruct r; simpl; [now rewrite app_assoc | reflexivity]. Qed.

Lemma framed_ext (f g : Printer -> Res Printer) :
  (forall p, f p = g p) -> framed g -> framed f.
Proof. intros E Hg p. now rewrite !E. Qed.

Lemma framed_Write (g : Z -> string) :
  framed (fun p => Ok (Write p (g (indent p)))).
Proof. intros p. reflexivity. Qed.

Lemma framed_Ok : framed (fun p => Ok p).
Proof. intros [b d]. simpl. now rewrite app_nil_r. Qed.

Lemma framed_Stop (e : Abort) : framed (fun _ => Stop e).
Proof. intros p. reflexivity. Qed.

Lemma framed_Indent : framed (fun p => Ok (Indent p)).
Proof. intros p. simpl. unfold Indent. simpl. now rewrite app_nil_r. Qed.

Lemma framed_Unindent : framed (fun p => Ok (Unindent p)).
Proof.
  intros [b d]. unfold Unindent. simpl.
  destruct (0 <? d)%Z; simpl; now rewrite app_nil_r.
Qed.

Lemma framed_bind (f g : Printer -> Res Printer) :
  framed f -> framed g -> framed (fun p => bind (f p) g).
Proof.
  intros Hf Hg p. rewrite (Hf p).
  destruct (f (blank (indent p))) as [q|e]; simpl; [|reflexivity].
  rewrite (Hg q), frame_frame.
  exact (Hg (mkPrinter (buf p ++ buf q) (indent q))).
Qed.

(** A step that does not depend on the printer. *)
Lemma framed_bind_pure {A : Type} (c : Res A) (k : A -> Printer -> Res Printer) :
  (forall a, framed (k a)) -> framed (fun p => bind c (fun a => k a p)).
Proof.
  intros Hk p. destruct c as [a|e]; simpl; [apply Hk | reflexivity].
Qed.

End FrameFacts.

(** ** The emitters append *)

Section EmitterFrame.
Import Str StrFacts PrinterFacts ExprFacts FrameFacts.

Variable U : string -> string.

Lemma framed_P (f : string) (l : list string) :
  framed (fun p => Ok (P p f l)).
Proof. exact (framed_Write (fun _ => Fmt.Sprintf f l)). Qed.

Lemma framed_Pi (f : string) (l : list string) :
  framed (fun p => Ok (Pi p f l)).
Proof.
  apply framed_ext with
    (g := fun p => Ok (Write p (indentation (indent p) ++ Fmt.Sprintf f l))).
  - intros p. now rewrite Pi_Write.
  - exact (framed_Write (fun d => indentation d ++ Fmt.Sprintf f l)).
Qed.

Lemma framed_Pln (f : string) (l : list string) :
  framed (fun p => Ok (Pln p f l)).
Proof.
  apply framed_ext with
    (g := fun p => Ok (Write p (indentation (indent p) ++ Fmt.Sprintf f l ++ nl))).
  - intros p. now rewrite Pln_Write.
  - exact (framed_Write (fun d => indentation d ++ Fmt.Sprintf f l ++ nl)).
Qed.

Lemma framed_VisitExpr (n : Expr) : framed (fun p => Ok (VisitExpr p n)).
Proof.
  apply framed_ext with (g := fun p => Ok (Write p (expr n))).
  - intros p. now rewrite VisitExpr_Write.
  - exact (framed_Write (fun _ => expr n)).
Qed.

Lemma framed_VisitFields (l : list Field) :
  framed (fun p => VisitFields p l).
Proof.
  induction l as [|f l IH]; [exact framed_Ok|].
  apply framed_ext with
    (g := fun p => bind (field f)
                     (fun s => bind (Ok (Pln p "%s;" [s])) (fun p => VisitFields p l))).
  - reflexivity.
  - apply framed_bind_pure. intros s.
    apply (framed_bind (fun p => Ok (Pln p "%s;" [s]))); [apply framed_Pln | exact IH].
Qed.

Lemma framed_VisitSpec (n : Spec) : framed (fun p => VisitSpec U p n).
Proof.
  destruct n as [Path|Names T|Name T].
  - apply framed_Pln.
  - assert (H : forall f (k : string -> list string),
               framed (fun p => bind (index0 Names)
                                  (fun name => Ok (Pln p f (k name))))).
    { intros f k. apply framed_bind_pure. intros a. apply framed_Pln. }
    destruct T as [[]|]; cbn [VisitSpec]; apply H.
  - destruct T; cbn [VisitSpec]; try exact framed_Ok; try apply framed_Pln.
    apply framed_ext with
      (g := fun p =>
         bind (bind (bind (bind (Ok (Pln p "struct %s {" [Name]))
                                (fun p => Ok (Indent p)))
                          (fun p => VisitFields p Fields))
                    (fun p => Ok (Unindent p)))
              (fun p => Ok (Pln p "};" []))).
    + intros p. cbn [bind]. destruct (VisitFields _ _); reflexivity.
    + repeat apply framed_bind;
        auto using framed_Pln, framed_Indent, framed_Unindent, framed_VisitFields.
Qed.

(** The statement emitters, by the nested induction. *)

Lemma VisitBlockStmt_eq (p : Printer) (l : list Stmt) :
  VisitBlockStmt U p l
  = bind (VisitStmts U (Indent (Write p ("{" ++ nl))) l)
         (fun p => Ok (Pln (Unindent p) "}" [])).
Proof. reflexivity. Qed.

Lemma framed_VisitStmts (l : list Stmt) :
  Forall (fun s => framed (fun p => VisitStmt U p s)) l ->
  framed (fun p => VisitStmts U p l).
Proof.
  induction 1 as [|s l Hs _ IH]; [exact framed_Ok|].
  exact (framed_bind _ _ Hs IH).
Qed.

Lemma framed_VisitBlockStmt (l : list Stmt) :
  Forall (fun s => framed (fun p => VisitStmt U p s)) l ->
  framed (fun p => VisitBlockStmt U p l).
Proof.
  intros Hl.
  apply framed_ext with
    (g := fun p =>
       bind (bind (bind (bind (Ok (Write p ("{" ++ nl)))
                              (fun p => Ok (Indent p)))
                        (fun p => VisitStmts U p l))
                  (fun p => Ok (Unindent p)))
            (fun p => Ok (Pln p "}" []))).
  - intros p. rewrite VisitBlockStmt_eq. cbn [bind].
    destruct (VisitStmts _ _ _); reflexivity.
  - repeat apply framed_bind;
      auto using framed_Pln, framed_Indent, framed_Unindent, framed_VisitStmts.
    exact (framed_Write (fun _ => "{" ++ nl)).
Qed.

Lemma VisitStmt_If (p : Printer) (c : Expr) (b : list Stmt) (e : option Stmt) :
  VisitStmt U p (IfStmt c b e)
  = bind (VisitBlockStmt U (P (VisitExpr (Pi p "if (" []) c) ") " []) b)
         (fun p =>
            match e with
            | Some (IfStmt c' b' _) =>
                VisitBlockStmt U (Pi p "else if(%s) " [expr c']) b'
            | Some (BlockStmt l) => VisitBlockStmt U (Pln p "else" []) l
            | _ => Ok p
            end).
Proof. reflexivity. Qed.

Lemma VisitStmt_For (p : Printer) (i : option Stmt) (c : option Expr)
  (po : option Stmt) (b : list Stmt) :
  VisitStmt U p (ForStmt i c po b)
  = bind (VisitStmtN U NewPrinter i) (fun pi =>
    bind (VisitStmtN U (Reset pi) po) (fun pp =>
      VisitBlockStmt U
        (Pi p "for (%s %s; %s) "
           [TrimRight (String_ pi) nl; exprN c;
            TrimRight (String_ pp) (";" ++ nl)]) b)).
Proof. reflexivity. Qed.

Lemma VisitDecl_Func (p : Printer) (n : string) (ps rs : list Field)
  (b : option (list Stmt)) :
  VisitDecl U p (FuncDecl n ps rs b) = VisitFunction U p n ps rs b.
Proof. reflexivity. Qed.

Lemma framed_VisitFunction (n : string) (ps rs : list Field)
  (b : option (list Stmt)) :
  match b with
  | Some l => Forall (fun s => framed (fun p => VisitStmt U p s)) l
  | None => True
  end ->
  framed (fun p => VisitFunction U p n ps rs b).
Proof.
  intros Hb. unfold VisitFunction, VisitFunction_over.
  destruct (Nat.ltb 1 (NumFields rs)); [apply framed_Stop|].
  apply framed_bind_pure. intros rettyp.
  apply framed_bind_pure. intros params.
  destruct b as [l|].
  - apply (framed_bind (fun p => Ok (Pln p "%s %s(%s)" [rettyp; n; params]))
             (fun p => VisitBlockStmt U p l));
      [apply framed_Pln | now apply framed_VisitBlockStmt].
  - apply framed_Stop.
Qed.

Lemma framed_VisitDecl_GenDecl (specs : list Spec) :
  framed (fun p => VisitDecl U p (GenDecl specs)).
Proof.
  apply framed_ext with
    (g := fun p => bind (index0 specs) (fun s => VisitSpec U p s));
    [reflexivity|].
  apply framed_bind_pure. intros s. apply framed_VisitSpec.
Qed.

Ltac binds :=
  lazymatch goal with
  | |- framed (fun p => bind (bind (@?a p) ?b) ?c) =>
      apply (framed_bind (fun p => bind (a p) b) c); [binds|]
  | |- framed (fun p => bind (Ok (@?a p)) ?c) =>
      apply (framed_bind (fun p => Ok (a p)) c)
  end.

Lemma framed_VisitStmt (s : Stmt) : framed (fun p => VisitStmt U p s).
Proof.
  revert s.
  apply Stmt_nested_ind with (PD := fun d => framed (fun p => VisitDecl U p d)).
  - (* statements without statements inside *)
    intros [X|Lhs Tok Rhs|d|Rs|X Tok|c b e|i c po b|l| |ch v|call] H;
      try discriminate H; cbn [VisitStmt]; try exact framed_Ok.
    + apply framed_Pln.
    + apply framed_bind_pure. intros l.
      apply framed_bind_pure. intros r. apply framed_Pln.
    + apply framed_bind_pure. intros r. apply framed_Pln.
    + apply (framed_bind (fun p => Ok (VisitExpr p X))
               (fun p => Ok (Pln p "%s;" [Token_String Tok])));
        [apply framed_VisitExpr | apply framed_Pln].
  - intros d Hd. exact Hd.
  - intros c b e Hb He.
    apply framed_ext with
      (g := fun p =>
         bind (bind (bind (bind (Ok (Pi p "if (" []))
                                (fun p => Ok (VisitExpr p c)))
                          (fun p => Ok (P p ") " [])))
                    (fun p => VisitBlockStmt U p b))
              (fun p =>
                 match e with
                 | Some (IfStmt c' b' _) =>
                     bind (Ok (Pi p "else if(%s) " [expr c']))
                          (fun p => VisitBlockStmt U p b')
                 | Some (BlockStmt l) =>
                     bind (Ok (Pln p "else" []))
                          (fun p => VisitBlockStmt U p l)
                 | _ => Ok p
                 end)).
    + intros p. rewrite VisitStmt_If. cbn [bind].
      destruct (VisitBlockStmt _ _ _) as [q|]; [|reflexivity].
      cbn [bind]. destruct e as [[]|]; reflexivity.
    + binds;
        auto using framed_Pi, framed_P, framed_VisitExpr, framed_VisitBlockStmt.
      destruct e as [[X|Lhs Tok Rhs|d|Rs|X Tok|c' b' e'|i c' po b'|l| |ch v|call]|];
        try exact framed_Ok; simpl in He.
      * apply (framed_bind (fun p => Ok (Pi p "else if(%s) " [expr c']))
                 (fun p => VisitBlockStmt U p b'));
          [apply framed_Pi | now apply framed_VisitBlockStmt].
      * apply (framed_bind (fun p => Ok (Pln p "else" []))
                 (fun p => VisitBlockStmt U p l));
          [apply framed_Pln | now apply framed_VisitBlockStmt].
  - intros i c po b _ _ Hb.
    apply framed_ext with
      (g := fun p =>
         bind (VisitStmtN U NewPrinter i) (fun pi =>
         bind (VisitStmtN U (Reset pi) po) (fun pp =>
         bind (Ok (Pi p "for (%s %s; %s) "
                     [TrimRight (String_ pi) nl; exprN c;
                      TrimRight (String_ pp) (";" ++ nl)]))
              (fun p => VisitBlockStmt U p b)))).
    + intros p. now rewrite VisitStmt_For.
    + apply framed_bind_pure. intros pi.
      apply framed_bind_pure. intros pp.
      apply (framed_bind (fun p => Ok (Pi p _ _)) (fun p => VisitBlockStmt U p b));
        [apply framed_Pi | now apply framed_VisitBlockStmt].
  - intros l _. exact framed_Ok.
  - intros n ps rs b Hb. now apply framed_VisitFunction.
  - apply framed_VisitDecl_GenDecl.
  - apply framed_Stop.
Qed.

Lemma framed_VisitDecl (d : Decl) : framed (fun p => VisitDecl U p d).
Proof.
  destruct d as [n ps rs b|specs|].
  - apply framed_VisitFunction. destruct b as [l|]; [|exact I].
    apply Forall_forall. intros s _. apply framed_VisitStmt.
  - apply framed_VisitDecl_GenDecl.
  - apply framed_Stop.
Qed.

Lemma framed_VisitDecls (l : list Decl) : framed (fun p => VisitDecls U p l).
Proof.
  induction l as [|d l IH]; [exact framed_Ok|].
  exact (framed_bind _ _ (framed_VisitDecl d) IH).
Qed.

Lemma framed_all_VisitStmt (l : list Stmt) :
  Forall (fun s => framed (fun p => VisitStmt U p s)) l.
Proof. apply Forall_forall. intros s _. apply framed_VisitStmt. Qed.

(** What a framed emitter returns extends the buffer and depends on the
    depth only. *)
Lemma framed_appends (f : Printer -> Res Printer) (p p' : Printer) :
  framed f -> f p = Ok p' ->
  exists q, f (blank (indent p)) = Ok q /\
            buf p' = buf p ++ buf q /\ indent p' = indent q.
Proof.
  intros Hf E. rewrite (Hf p) in E.
  destruct (f (blank (indent p))) as [q|e]; simpl in E; [|discriminate].
  injection E as <-. now exists q.
Qed.

End EmitterFrame.

(** ** The emitters return at the depth they were called at *)

Module BalanceFacts.

Lemma fits_mono (p : Printer) (n m : nat) : n <= m -> fits p m -> fits p n.
Proof. unfold fits. lia. Qed.

Lemma fits_same (p q : Printer) (n : nat) :
  indent q = indent p -> fits p n -> fits q n.
Proof. unfold fits. intros ->. exact (fun H => H). Qed.

Lemma wrap_int_small (z : Z) :
  (- 2 ^ 63 <= z < 2 ^ 63)%Z -> wrap_int z = z.
Proof. intros H. unfold wrap_int. rewrite Z.mod_small; lia. Qed.

Lemma Indent_fits (p : Printer) (n : nat) :
  fits p (S n) ->
  indent (Indent p) = (indent p + 1)%Z /\ fits (Indent p) n.
Proof.
  unfold fits, Indent. intros [H0 H1]. cbn [indent].
  rewrite wrap_int_small by lia. lia.
Qed.

Lemma Unindent_Indent (p q : Printer) (n : nat) :
  fits p (S n) -> indent q = indent (Indent p) ->
  indent (Unindent q) = indent p.
Proof.
  intros Hf Hq. destruct (Indent_fits p n Hf) as [Hi _].
  unfold Unindent. destruct (Z.ltb_spec 0 (indent q)); cbn [indent]; destruct Hf; lia.
Qed.

Lemma balanced_mono (n m : nat) (f : Printer -> Res Printer) :
  n <= m -> balanced n f -> balanced m f.
Proof. intros L H p p' Hp. apply H. now apply fits_mono with m. Qed.

Lemma balanced_ext (n : nat) (f g : Printer -> Res Printer) :
  (forall p, f p = g p) -> balanced n g -> balanced n f.
Proof. intros E H p p'. rewrite E. apply H. Qed.

Lemma balanced_Ok (n : nat) (h : Printer -> Printer) :
  (forall p, indent (h p) = indent p) -> balanced n (fun p => Ok (h p)).
Proof. intros H p p' _ [= <-]. apply H. Qed.

Lemma balanced_Stop (n : nat) (e : Abort) : balanced n (fun _ => Stop e).
Proof. intros p p' _ E. discriminate E. Qed.

Lemma balanced_bind (n : nat) (f g : Printer -> Res Printer) :
  balanced n f -> balanced n g -> balanced n (fun p => bind (f p) g).
Proof.
  intros Hf Hg p p' Hp E. destruct (f p) as [q|e] eqn:Ef; simpl in E; [|discriminate].
  pose proof (Hf p q Hp Ef) as Hq.
  rewrite <- Hq. apply Hg; [|assumption]. now apply fits_same with p.
Qed.

Lemma balanced_bind_pure {A : Type} (n : nat) (c : Res A)
  (k : A -> Printer -> Res Printer) :
  (forall a, balanced n (k a)) -> balanced n (fun p => bind c (fun a => k a p)).
Proof.
  intros Hk p p' Hp E. destruct c as [a|e]; simpl in E; [|discriminate].
  now apply (Hk a).
Qed.

(** A block: whatever is emitted one level deeper and returns there. *)
Lemma balanced_nested (n : nat) (f : Printer -> Res Printer) :
  balanced n f ->
  balanced (S n) (fun p => bind (f (Indent p)) (fun q => Ok (Unindent q))).
Proof.
  intros Hf p p' Hp E.
  destruct (f (Indent p)) as [q|e] eqn:Ef; simpl in E; [|discriminate].
  injection E as <-.
  apply Unindent_Indent with n; [assumption|].
  apply Hf; [|assumption]. now apply Indent_fits.
Qed.

End BalanceFacts.

Section EmitterBalance.
Import Str StrFacts PrinterFacts ExprFacts BalanceFacts.

Variable U : string -> string.

Lemma indent_P p f l : indent (P p f l) = indent p.
Proof. reflexivity. Qed.

Lemma indent_Pi p f l : indent (Pi p f l) = indent p.
Proof. now rewrite Pi_Write. Qed.

Lemma indent_Pln p f l : indent (Pln p f l) = indent p.
Proof. now rewrite Pln_Write. Qed.

Lemma indent_VisitExpr p n : indent (VisitExpr p n) = indent p.
Proof. now rewrite VisitExpr_Write. Qed.

Lemma balanced_VisitFields (n : nat) (l : list Field) :
  balanced n (fun p => VisitFields p l).
Proof.
  induction l as [|f l IH]; [now apply balanced_Ok with (h := fun p => p)|].
  apply balanced_ext with
    (g := fun p => bind (field f)
                     (fun s => bind (Ok (Pln p "%s;" [s])) (fun p => VisitFields p l)));
    [reflexivity|].
  apply balanced_bind_pure. intros s.
  apply (balanced_bind n (fun p => Ok (Pln p "%s;" [s]))); [|exact IH].
  apply balanced_Ok with (h := fun p => Pln p _ _). intros p. apply indent_Pln.
Qed.

Lemma balanced_VisitSpec (s : Spec) : balanced 1 (fun p => VisitSpec U p s).
Proof.
  destruct s as [Path|Names T|Name T].
  - apply balanced_Ok with (h := fun p => Pln p _ _). intros p. apply indent_Pln.
  - assert (H : forall f (k : string -> list string),
               balanced 1 (fun p => bind (index0 Names)
                                      (fun name => Ok (Pln p f (k name))))).
    { intros f k. apply balanced_bind_pure. intros a.
      apply balanced_Ok with (h := fun p => Pln p _ _). intros p. apply indent_Pln. }
    destruct T as [[]|]; cbn [VisitSpec]; apply H.
  - destruct T; cbn [VisitSpec];
      try (now apply balanced_Ok with (h := fun p => p));
      try (apply balanced_Ok with (h := fun p => Pln p _ _); intros p; apply indent_Pln).
    apply balanced_ext with
      (g := fun p =>
         bind (bind (Ok (Pln p "struct %s {" [Name]))
                 (fun p => bind (VisitFields (Indent p) Fields)
                             (fun q => Ok (Unindent q))))
              (fun p => Ok (Pln p "};" []))).
    + intros p. cbn [bind]. destruct (VisitFields _ _); reflexivity.
    + apply balanced_bind; [apply balanced_bind|].
      * apply balanced_Ok with (h := fun p => Pln p _ _). intros p. apply indent_Pln.
      * apply balanced_nested with (f := fun p => VisitFields p Fields).
        apply balanced_VisitFields.
      * apply balanced_Ok with (h := fun p => Pln p _ _). intros p. apply indent_Pln.
Qed.

Lemma nests_cons (s : Stmt) (l : list Stmt) :
  nests (s :: l) = Nat.max (nest s) (nests l).
Proof. reflexivity. Qed.

Lemma balanced_VisitStmts (l : list Stmt) :
  Forall (fun s => balanced (nest s) (fun p => VisitStmt U p s)) l ->
  balanced (nests l) (fun p => VisitStmts U p l).
Proof.
  induction 1 as [|s l Hs _ IH]; [now apply balanced_Ok with (h := fun p => p)|].
  rewrite nests_cons.
  apply (balanced_bind _ (fun p => VisitStmt U p s) (fun p => VisitStmts U p l)).
  - apply balanced_mono with (nest s); [lia | exact Hs].
  - apply balanced_mono with (nests l); [lia | exact IH].
Qed.

Lemma balanced_VisitBlockStmt (l : list Stmt) :
  Forall (fun s => balanced (nest s) (fun p => VisitStmt U p s)) l ->
  balanced (S (nests l)) (fun p => VisitBlockStmt U p l).
Proof.
  intros Hl.
  apply balanced_ext with
    (g := fun p =>
       bind (bind (Ok (Write p ("{" ++ nl)))
               (fun p => bind (VisitStmts U (Indent p) l)
                           (fun q => Ok (Unindent q))))
            (fun p => Ok (Pln p "}" []))).
  - intros p. rewrite VisitBlockStmt_eq. cbn [bind].
    destruct (VisitStmts _ _ _); reflexivity.
  - apply balanced_bind; [apply balanced_bind|].
    + now apply balanced_Ok with (h := fun p => Write p _).
    + apply balanced_nested with (f := fun p => VisitStmts U p l).
      now apply balanced_VisitStmts.
    + apply balanced_Ok with (h := fun p => Pln p _ _). intros p. apply indent_Pln.
Qed.


Lemma balanced_VisitFunction (n : string) (ps rs : list Field)
  (b : option (list Stmt)) :
  match b with
  | Some l => Forall (fun s => balanced (nest s) (fun p => VisitStmt U p s)) l
  | None => True
  end ->
  balanced (nestD (FuncDecl n ps rs b)) (fun p => VisitFunction U p n ps rs b).
Proof.
  intros Hb. unfold VisitFunction, VisitFunction_over.
  destruct (Nat.ltb 1 (NumFields rs)); [apply balanced_Stop|].
  apply balanced_bind_pure. intros rettyp.
  apply balanced_bind_pure. intros params.
  destruct b as [l|]; [|apply balanced_Stop].
  apply (balanced_bind _ (fun p => Ok (Pln p "%s %s(%s)" [rettyp; n; params]))
           (fun p => VisitBlockStmt U p l)).
  - apply balanced_Ok with (h := fun p => Pln p _ _). intros p. apply indent_Pln.
  - now apply balanced_VisitBlockStmt.
Qed.

Lemma balanced_VisitDecl_GenDecl (specs : list Spec) :
  balanced 1 (fun p => VisitDecl U p (GenDecl specs)).
Proof.
  apply balanced_ext with
    (g := fun p => bind (index0 specs) (fun s => VisitSpec U p s));
    [reflexivity|].
  apply balanced_bind_pure. intros s. apply balanced_VisitSpec.
Qed.

Lemma nest_If (c : Expr) (b : list Stmt) (e : option Stmt) :
  nest (IfStmt c b e)
  = Nat.max (S (nests b)) (match e with Some s => nest s | None => 0 end).
Proof. reflexivity. Qed.

Lemma nest_For (i : option Stmt) (c : option Expr) (po : option Stmt)
  (b : list Stmt) :
  nest (ForStmt i c po b)
  = Nat.max (match i with Some s => nest s | None => 0 end)
      (Nat.max (match po with Some s => nest s | None => 0 end) (S (nests b))).
Proof. reflexivity. Qed.

Lemma balanced_VisitStmt (s : Stmt) :
  balanced (nest s) (fun p => VisitStmt U p s).
Proof.
  revert s.
  apply Stmt_nested_ind
    with (PD := fun d => balanced (nestD d) (fun p => VisitDecl U p d)).
  - intros [X|Lhs Tok Rhs|d|Rs|X Tok|c b e|i c po b|l| |ch v|call] H;
      try discriminate H; cbn [VisitStmt];
      try (now apply balanced_Ok with (h := fun p => p)).
    + apply balanced_Ok with (h := fun p => Pln p _ _). intros p. apply indent_Pln.
    + apply balanced_bind_pure. intros l.
      apply balanced_bind_pure. intros r.
      apply balanced_Ok with (h := fun p => Pln p _ _). intros p. apply indent_Pln.
    + apply balanced_bind_pure. intros r.
      apply balanced_Ok with (h := fun p => Pln p _ _). intros p. apply indent_Pln.
    + apply balanced_Ok with (h := fun p => Pln (VisitExpr p X) _ _).
      intros p. now rewrite indent_Pln, indent_VisitExpr.
  - intros d Hd. exact Hd.
  - intros c b e Hb He. rewrite nest_If.
    apply balanced_ext with
      (g := fun p =>
         bind (bind (Ok (P (VisitExpr (Pi p "if (" []) c) ") " []))
                    (fun p => VisitBlockStmt U p b))
              (fun p =>
                 match e with
                 | Some (IfStmt c' b' _) =>
                     bind (Ok (Pi p "else if(%s) " [expr c']))
                          (fun p => VisitBlockStmt U p b')
                 | Some (BlockStmt l) =>
                     bind (Ok (Pln p "else" []))
                          (fun p => VisitBlockStmt U p l)
                 | _ => Ok p
                 end)).
    + intros p. rewrite VisitStmt_If. cbn [bind].
      destruct (VisitBlockStmt _ _ _) as [q|]; [|reflexivity].
      cbn [bind]. destruct e as [[]|]; reflexivity.
    + apply balanced_bind;
        [apply (balanced_bind _ (fun p => Ok (P (VisitExpr (Pi p "if (" []) c) ") " []))
                  (fun p => VisitBlockStmt U p b))|].
      * apply balanced_Ok with (h := fun p => P (VisitExpr (Pi p _ _) c) _ _).
        intros p. now rewrite indent_P, indent_VisitExpr, indent_Pi.
      * apply balanced_mono with (S (nests b)); [lia|].
        now apply balanced_VisitBlockStmt.
      * destruct e as [[X|Lhs Tok Rhs|d|Rs|X Tok|c' b' e'|i c' po b'|l| |ch v|call]|];
          try (now apply balanced_Ok with (h := fun p => p)); simpl in He.
        -- apply (balanced_bind _ (fun p => Ok (Pi p "else if(%s) " [expr c']))
                    (fun p => VisitBlockStmt U p b')).
           ++ apply balanced_Ok with (h := fun p => Pi p _ _).
              intros p. apply indent_Pi.
           ++ apply balanced_mono with (S (nests b')); [rewrite nest_If; lia|].
              now apply balanced_VisitBlockStmt.
        -- apply (balanced_bind _ (fun p => Ok (Pln p "else" []))
                    (fun p => VisitBlockStmt U p l)).
           ++ apply balanced_Ok with (h := fun p => Pln p _ _).
              intros p. apply indent_Pln.
           ++ apply balanced_mono with (S (nests l));
                [change (nest (BlockStmt l)) with (S (nests l)); lia|].
              now apply balanced_VisitBlockStmt.
  - intros i c po b _ _ Hb. rewrite nest_For.
    apply balanced_ext with
      (g := fun p =>
         bind (VisitStmtN U NewPrinter i) (fun pi =>
         bind (VisitStmtN U (Reset pi) po) (fun pp =>
         bind (Ok (Pi p "for (%s %s; %s) "
                     [TrimRight (String_ pi) nl; exprN c;
                      TrimRight (String_ pp) (";" ++ nl)]))
              (fun p => VisitBlockStmt U p b)))).
    + intros p. now rewrite VisitStmt_For.
    + apply balanced_bind_pure. intros pi.
      apply balanced_bind_pure. intros pp.
      apply (balanced_bind _ (fun p => Ok (Pi p _ _)) (fun p => VisitBlockStmt U p b)).
      * apply balanced_Ok with (h := fun p => Pi p _ _). intros p. apply indent_Pi.
      * apply balanced_mono with (S (nests b)); [lia|].
        now apply balanced_VisitBlockStmt.
  - intros l _. now apply balanced_Ok with (h := fun p => p).
  - intros n ps rs b Hb. now apply balanced_VisitFunction.
  - apply balanced_VisitDecl_GenDecl.
  - apply balanced_Stop.
Qed.

Lemma balanced_all_VisitStmt (l : list Stmt) :
  Forall (fun s => balanced (nest s) (fun p => VisitStmt U p s)) l.
Proof. apply Forall_forall. intros s _. apply balanced_VisitStmt. Qed.

Lemma balanced_VisitDecl (d : Decl) :
  balanced (nestD d) (fun p => VisitDecl U p d).
Proof.
  destruct d as [n ps rs b|specs|].
  - apply balanced_VisitFunction. destruct b as [l|]; [|exact I].
    apply balanced_all_VisitStmt.
  - apply balanced_VisitDecl_GenDecl.
  - apply balanced_Stop.
Qed.

Lemma balanced_VisitDecls (l : list Decl) :
  balanced (nestDs l) (fun p => VisitDecls U p l).
Proof.
  induction l as [|d l IH]; [now apply balanced_Ok with (h := fun p => p)|].
  change (nestDs (d :: l)) with (Nat.max (nestD d) (nestDs l)).
  apply (balanced_bind _ (fun p => VisitDecl U p d) (fun p => VisitDecls U p l)).
  - apply balanced_mono with (nestD d); [lia | apply balanced_VisitDecl].
  - apply balanced_mono with (nestDs l); [lia | exact IH].
Qed.

End EmitterBalance.

(** * The claims *)

Section Claims.
Import Str StrFacts PrinterFacts ExprFacts FrameFacts BalanceFacts.

Variable U : string -> string.

Lemma simple_text_line (s : Stmt) (t : string) :
  simple_text s = Some t ->
  VisitStmt U NewPrinter s = Ok (mkPrinter (t ++ ";" ++ nl) 0).
Proof.
  destruct s as [X|[|l Lhs] Tok [|r Rhs]|d|Rs|X Tok|c b e|i c po b|l| |ch v|call];
    intros [= <-]; cbn [VisitStmt index0 bind].
  all: rewrite ?Pln_Write, ?VisitExpr_Write; unfold Write, NewPrinter;
    cbn [buf indent indentation Z.to_nat rep Fmt.Sprintf]; cbn; str_norm; reflexivity.
Qed.

Lemma Pi_for_text (p : Printer) (a b c : string) :
  Pi p "for (%s %s; %s) " [a; b; c]
  = Write p (indentation (indent p)
             ++ "for (" ++ a ++ " " ++ b ++ "; " ++ c ++ ") ").
Proof. now rewrite Pi_Write, Sprintf_for. Qed.

(** C1 (amended).  The header of a [for] statement with init [I], condition
    [C] and post [Po] is composed from scratch renderings: [I] is rendered
    into a new printer and loses its trailing line breaks only, [Po] is
    rendered into the same printer once reset and loses its trailing [;] and
    line breaks, and the line [for (<init> <cond>; <post>) ] is written at
    the current indentation, followed by the block of the body.  When [I]
    and [Po] are one-line statements of texts [ti] and [tp], [tp] not ending
    in [;] or a line break, the header is [for (ti; <cond>; tp) ]: the init
    keeps its [;].  For init [i := 0], condition [i < n] and post [i++] the
    header is the text [for (i := 0; (i<n); i++) ]. *)
Theorem For_header_composition (I Po : Stmt) (C : Expr) (Body : list Stmt)
  (p : Printer) :
  VisitStmt U p (ForStmt (Some I) (Some C) (Some Po) Body)
  = bind (VisitStmt U NewPrinter I) (fun pi =>
    bind (VisitStmt U (Reset pi) Po) (fun pp =>
      VisitBlockStmt U
        (Write p (indentation (indent p)
                  ++ "for (" ++ TrimRight (buf pi) nl ++ " " ++ expr C ++ "; "
                  ++ TrimRight (buf pp) (";" ++ nl) ++ ") "))
        Body))
  /\ (forall ti tp,
        simple_text I = Some ti -> simple_text Po = Some tp ->
        clean_end tp (";" ++ nl) = true ->
        VisitStmt U p (ForStmt (Some I) (Some C) (Some Po) Body)
        = VisitBlockStmt U
            (Write p (indentation (indent p)
                      ++ "for (" ++ ti ++ "; " ++ expr C ++ "; " ++ tp ++ ") "))
            Body)
  /\ VisitStmt U p (for_i_n Body)
     = VisitBlockStmt U
         (Write p (indentation (indent p) ++ "for (i := 0; (i<n); i++) "))
         Body.
Proof.
  assert (G : forall I Po C,
    VisitStmt U p (ForStmt (Some I) (Some C) (Some Po) Body)
    = bind (VisitStmt U NewPrinter I) (fun pi =>
      bind (VisitStmt U (Reset pi) Po) (fun pp =>
        VisitBlockStmt U
          (Write p (indentation (indent p)
                    ++ "for (" ++ TrimRight (buf pi) nl ++ " " ++ expr C ++ "; "
                    ++ TrimRight (buf pp) (";" ++ nl) ++ ") "))
          Body))).
  { intros I' Po' C'. rewrite VisitStmt_For. cbn [VisitStmtN].
    destruct (VisitStmt U NewPrinter I') as [pi|]; [|reflexivity]. cbn [bind].
    destruct (VisitStmt U (Reset pi) Po') as [pp|]; [|reflexivity]. cbn [bind].
    now rewrite Pi_for_text. }
  assert (S : forall I Po C ti tp,
    simple_text I = Some ti -> simple_text Po = Some tp ->
    clean_end tp (";" ++ nl) = true ->
    VisitStmt U p (ForStmt (Some I) (Some C) (Some Po) Body)
    = VisitBlockStmt U
        (Write p (indentation (indent p)
                  ++ "for (" ++ ti ++ "; " ++ expr C ++ "; " ++ tp ++ ") "))
        Body).
  { intros I' Po' C' ti tp Hi Hp Hc. rewrite G.
    rewrite (simple_text_line I' ti Hi). unfold Reset. cbn [bind indent buf].
    change (mkPrinter "" 0) with NewPrinter.
    rewrite (simple_text_line Po' tp Hp). cbn [bind buf].
    rewrite TrimRight_line_init, TrimRight_line_post, (TrimRight_clean _ _ Hc).
    now str_norm. }
  split; [apply G | split; [apply S|]].
  unfold for_i_n. rewrite (S _ _ _ "i := 0" "i++") by reflexivity.
  reflexivity.
Qed.
Lemma Pln_text (p : Printer) (f : string) (l : list string) (t : string) :
  Fmt.Sprintf f l = t ->
  Pln p f l = Write p (indentation (indent p) ++ t ++ nl).
Proof. intros <-. apply Pln_Write. Qed.

(** C2 (amended).  A multi-value assignment, return or field does not stop
    the pass: the emitters index element 0 of each list and never look at
    the others, so the line of the first target and first value, of the
    first result, of the first name is written as for the single-value
    form. *)
Theorem multi_value_first_only (p : Printer) :
  (forall l ls Tok r rs,
     VisitStmt U p (AssignStmt (l :: ls) Tok (r :: rs))
     = Ok (Write p (indentation (indent p)
                    ++ expr l ++ " " ++ Token_String Tok ++ " " ++ expr r
                    ++ ";" ++ nl)))
  /\ (forall r rs,
        VisitStmt U p (ReturnStmt (r :: rs))
        = Ok (Write p (indentation (indent p)
                       ++ "return " ++ expr r ++ ";" ++ nl)))
  /\ (forall name names T,
        field (mkField (name :: names) T) = field (mkField [name] T)
        /\ is_ok (field (mkField (name :: names) T)) = true).
Proof.
  split; [|split].
  - intros l ls Tok r rs. cbn [VisitStmt index0 bind].
    rewrite (Pln_text _ _ _ _ (Sprintf_assign _ _ _)). now str_norm.
  - intros r rs. cbn [VisitStmt index0 bind].
    rewrite (Pln_text _ _ _ _ (Sprintf_return _)). now str_norm.
  - intros name names T. unfold field. cbn [Field_Type Field_Names index0 bind].
    destruct T; split; reflexivity.
Qed.

(** C3 (what the code does).  For an [IncDecStmt] the operand is written
    first, without indentation, and then the line of the operator: at depth
    [d] the indentation stands between the operand and the operator.  In the
    body of a function, [i++] comes out as [i    ++;]. *)
Theorem IncDecStmt_line (p : Printer) (X : Expr) (Tok : Token) :
  VisitStmt U p (IncDecStmt X Tok)
  = Ok (Write p (expr X ++ indentation (indent p) ++ Token_String Tok
                 ++ ";" ++ nl))
  /\ emit U (mkFile [FuncDecl "f" [] [] (Some [IncDecStmt (Ident "i") INC])])
     = Ok ("void f()" ++ nl ++ "{" ++ nl ++ "i    ++;" ++ nl ++ "}" ++ nl).
Proof.
  split; [|reflexivity].
  cbn [VisitStmt]. rewrite VisitExpr_Write, Pln_Write, Write_Write.
  rewrite indent_Write, Sprintf_s_semi. now str_norm.
Qed.

(** The fragment of a binary expression whose operator is not [%]. *)
Lemma expr_BinaryExpr_op (X Y : Expr) (Op : Token) :
  is_binary_op Op = true -> Op <> REM ->
  expr (BinaryExpr X Op Y) = "(" ++ expr X ++ Token_String Op ++ expr Y ++ ")".
Proof.
  intros H1 H2. now rewrite expr_BinaryExpr, Sprintf_binary_op.
Qed.

(** C5 (what the code does).  [VisitBinExpr] passes the operator's text to
    [P] as the format: the text of the remainder operator is a lone [%],
    for which [fmt] writes [%!(NOVERB)].  The fragment of [a % b] is
    [(a%!(NOVERB)b)]; the parentheses are there, the operator text is
    not. *)
Theorem BinaryExpr_REM_fragment (X Y : Expr) :
  expr (BinaryExpr X REM Y) = "(" ++ expr X ++ "%!(NOVERB)" ++ expr Y ++ ")"
  /\ expr (BinaryExpr (Ident "a") REM (Ident "b")) = "(a%!(NOVERB)b)"
  /\ expr (BinaryExpr X REM Y)
     <> "(" ++ expr X ++ Token_String REM ++ expr Y ++ ")".
Proof.
  split; [apply expr_BinaryExpr | split; [reflexivity|]].
  rewrite expr_BinaryExpr. intros H. apply (f_equal String.length) in H.
  cbn [append Fmt.Sprintf Token_String Fmt.noVerbString Fmt.extra] in H.
  cbn [Ascii.eqb Bool.eqb Fmt.percent] in H. cbn [String.length] in H.
  repeat (progress (rewrite ?length_app in H; cbn [String.length] in H)). lia.
Qed.

(** C6.  On an expression of a kind it has no case for, the expression
    emitter writes nothing and returns: the printer is unchanged and the
    fragment is empty.  The same holds in the minimal variant. *)
Theorem unrecognized_expr_silent (n : Expr) :
  recognized n = false ->
  (forall p, VisitExpr p n = p)
  /\ expr n = ""
  /\ (forall p, Minimal.VisitExpr p n = p).
Proof. destruct n; intros H; try discriminate H; repeat split. Qed.

Lemma VisitDecls_app (l1 l2 : list Decl) (p : Printer) :
  VisitDecls U p (l1 ++ l2)
  = bind (VisitDecls U p l1) (fun p => VisitDecls U p l2).
Proof.
  revert p. induction l1 as [|d l1 IH]; intros p; [reflexivity|].
  cbn [VisitDecls List.app]. destruct (VisitDecl U p d); [apply IH | reflexivity].
Qed.

(** Two files that differ in one declaration emitted alike are emitted
    alike. *)
Lemma emit_congr (d d' : Decl) (ds1 ds2 : list Decl) :
  (forall p, VisitDecl U p d = VisitDecl U p d') ->
  emit U (mkFile (ds1 ++ d :: ds2)) = emit U (mkFile (ds1 ++ d' :: ds2)).
Proof.
  intros H. unfold emit, VisitFile. cbn [Decls].
  rewrite !VisitDecls_app. destruct (VisitDecls U NewPrinter ds1); [|reflexivity].
  cbn [bind VisitDecls]. now rewrite H.
Qed.

Lemma VisitFunction_header (p : Printer) (Name : string)
  (Params Results : list Field) (l : list Stmt) (rettyp : string) :
  Nat.ltb 1 (NumFields Results) = false ->
  (if Nat.ltb 0 (NumFields Results)
   then bind (index0 Results) (fun f => Ok (expr (Field_Type f)))
   else Ok "void") = Ok rettyp ->
  VisitFunction U p Name Params Results (Some l)
  = bind (params_text Params) (fun params =>
      VisitBlockStmt U
        (Write p (indentation (indent p)
                  ++ rettyp ++ " " ++ Name ++ "(" ++ params ++ ")" ++ nl))
        l).
Proof.
  intros H1 H2. unfold VisitFunction, VisitFunction_over, params_text.
  rewrite H1, H2. cbn [bind].
  destruct (if negb _ then _ else _) as [params|]; [|reflexivity]. cbn [bind].
  rewrite (Pln_text _ _ _ _ (Sprintf_func _ _ _)). now str_norm.
Qed.

(** C4.  A function with two or more results stops the pass with the
    diagnostic of [log.Fatal], and no file that declares one is emitted;
    with no result the header line starts with [void], with one result it
    starts with the rendered type of that result. *)
Theorem VisitFunction_results (p : Printer) (Name : string)
  (Params Results : list Field) :
  (2 <= NumFields Results ->
     (forall Body,
        VisitFunction U p Name Params Results Body = Stop FatalNumberOfReturn)
     /\ (forall Body ds1 ds2,
           is_ok (emit U (mkFile (ds1 ++ FuncDecl Name Params Results Body
                                      :: ds2))) = false))
  /\ (NumFields Results = 0 ->
      forall l,
        VisitFunction U p Name Params Results (Some l)
        = bind (params_text Params) (fun params =>
            VisitBlockStmt U
              (Write p (indentation (indent p)
                        ++ "void" ++ " " ++ Name ++ "(" ++ params ++ ")" ++ nl))
              l))
  /\ (NumFields Results = 1 ->
      exists f rest,
        Results = f :: rest /\
        forall l,
          VisitFunction U p Name Params Results (Some l)
          = bind (params_text Params) (fun params =>
              VisitBlockStmt U
                (Write p (indentation (indent p)
                          ++ expr (Field_Type f) ++ " " ++ Name
                          ++ "(" ++ params ++ ")" ++ nl))
                l)).
Proof.
  split; [|split].
  - intros H.
    assert (E : forall q Body,
               VisitFunction U q Name Params Results Body
               = Stop FatalNumberOfReturn).
    { intros q Body. unfold VisitFunction, VisitFunction_over.
      destruct (Nat.ltb_spec 1 (NumFields Results)); [reflexivity | lia]. }
    split; [intros Body; apply E|].
    intros Body ds1 ds2. unfold emit, VisitFile. cbn [Decls].
    rewrite VisitDecls_app.
    destruct (VisitDecls U NewPrinter ds1) as [q|]; [|reflexivity].
    cbn [bind VisitDecls]. rewrite VisitDecl_Func, E. reflexivity.
  - intros H l. apply VisitFunction_header; rewrite H; reflexivity.
  - intros H. destruct Results as [|f rest]; [discriminate H|].
    exists f, rest. split; [reflexivity|].
    intros l. apply VisitFunction_header; rewrite H; reflexivity.
Qed.

(** C9.  A general declaration is emitted as its first spec alone: the specs
    after the first have no part in what is written, for the declaration and
    for the file that holds it. *)
Theorem GenDecl_first_spec_only (s : Spec) (rest : list Spec) :
  (forall p, VisitDecl U p (GenDecl (s :: rest)) = VisitSpec U p s)
  /\ (forall p, VisitDecl U p (GenDecl (s :: rest))
                = VisitDecl U p (GenDecl [s]))
  /\ (forall ds1 ds2,
        emit U (mkFile (ds1 ++ GenDecl (s :: rest) :: ds2))
        = emit U (mkFile (ds1 ++ GenDecl [s] :: ds2))).
Proof.
  split; [reflexivity | split; [reflexivity|]].
  intros ds1 ds2. now apply emit_congr.
Qed.

Lemma If_header_text (p : Printer) (c : Expr) :
  P (VisitExpr (Pi p "if (" []) c) ") " []
  = Write p (indentation (indent p) ++ "if (" ++ expr c ++ ") ").
Proof.
  rewrite VisitExpr_Write, Pi_Write, P_Write, !Write_Write.
  f_equal. cbn [Fmt.Sprintf Fmt.extra]. cbn. now str_norm.
Qed.

(** C10.  When the [else] branch of an [if] is an [if], its header
    [else if(<cond>) ] and its block are written and nothing else: the inner
    statement's own [else] branch has no part in the output. *)
Theorem else_if_drops_inner_else (p : Printer) (c c' : Expr)
  (b b' : list Stmt) (e' : option Stmt) :
  VisitStmt U p (IfStmt c b (Some (IfStmt c' b' e')))
  = bind (VisitBlockStmt U
            (Write p (indentation (indent p) ++ "if (" ++ expr c ++ ") ")) b)
         (fun p1 =>
            VisitBlockStmt U
              (Write p1 (indentation (indent p1)
                         ++ "else if(" ++ expr c' ++ ") ")) b')
  /\ VisitStmt U p (IfStmt c b (Some (IfStmt c' b' e')))
     = VisitStmt U p (IfStmt c b (Some (IfStmt c' b' None))).
Proof.
  split; [|reflexivity].
  rewrite VisitStmt_If, If_header_text.
  destruct (VisitBlockStmt U _ b) as [p1|]; [|reflexivity]. cbn [bind].
  now rewrite Pi_Write, Sprintf_else_if.
Qed.

Lemma bind_Ok_inv {A B : Type} (m : Res A) (k : A -> Res B) (b : B) :
  bind m k = Ok b -> exists a, m = Ok a /\ k a = Ok b.
Proof. destruct m as [a|e]; simpl; [now exists a | discriminate]. Qed.

(** A block opened at depth [d]: its statements are emitted at depth [d + 1]
    and its closing brace is written at depth [d]. *)
Lemma VisitBlockStmt_braces (l : list Stmt) (p p' : Printer) :
  fits p (S (nests l)) ->
  VisitBlockStmt U p l = Ok p' ->
  indent p' = indent p /\
  exists q, VisitStmts U (blank (indent p + 1)) l = Ok q /\
            buf p' = buf p ++ "{" ++ nl ++ buf q
                     ++ indentation (indent p) ++ "}" ++ nl.
Proof.
  intros Hf E. split.
  - exact (balanced_VisitBlockStmt U l (balanced_all_VisitStmt U l) p p' Hf E).
  - rewrite VisitBlockStmt_eq in E.
    apply bind_Ok_inv in E as (p1 & E1 & E2). injection E2 as <-.
    destruct (Indent_fits (Write p ("{" ++ nl)) (nests l) Hf) as [Hi Hfi].
    destruct (framed_appends _ _ _
                (framed_VisitStmts U l (framed_all_VisitStmt U l)) E1)
      as (q & Eq & Hb & Hd).
    rewrite Hi in Eq. cbn [indent Write] in Eq.
    exists q. split; [exact Eq|].
    assert (Hu : indent (Unindent p1) = indent p).
    { apply Unindent_Indent with (nests l); [exact Hf|].
      change (indent (Indent p)) with (indent (Indent (Write p ("{" ++ nl)))).
      exact (balanced_VisitStmts U l (balanced_all_VisitStmt U l) _ _ Hfi E1). }
    rewrite Pln_Write. cbn [buf Write]. rewrite Hu.
    replace (buf (Unindent p1)) with (buf p1)
      by (unfold Unindent; now destruct (0 <? indent p1)%Z).
    rewrite Hb. cbn [buf Indent Write]. now str_norm.
Qed.

(** A struct opened at depth [d]: its fields are written at depth [d + 1]
    and its closing brace at depth [d]. *)
Lemma struct_braces (Name : string) (Fields : list Field) (p p' : Printer) :
  fits p 1 ->
  VisitSpec U p (TypeSpec Name (StructType Fields)) = Ok p' ->
  indent p' = indent p /\
  exists q, VisitFields (blank (indent p + 1)) Fields = Ok q /\
            buf p' = buf p ++ indentation (indent p) ++ "struct " ++ Name
                     ++ " {" ++ nl ++ buf q
                     ++ indentation (indent p) ++ "};" ++ nl.
Proof.
  intros Hf E. split.
  - exact (balanced_VisitSpec U _ p p' Hf E).
  - cbn [VisitSpec] in E.
    apply bind_Ok_inv in E as (p1 & E1 & E2). injection E2 as <-.
    assert (Hf' : fits (Pln p "struct %s {" [Name]) 1)
      by (apply fits_same with p; [apply indent_Pln | exact Hf]).
    destruct (Indent_fits _ 0 Hf') as [Hi Hfi].
    destruct (framed_appends _ _ _ (framed_VisitFields Fields) E1)
      as (q & Eq & Hb & Hd).
    rewrite Hi, indent_Pln in Eq.
    exists q. split; [exact Eq|].
    assert (Hu : indent (Unindent p1) = indent p).
    { rewrite <- (indent_Pln p "struct %s {" [Name]).
      apply Unindent_Indent with 0; [exact Hf'|].
      exact (balanced_VisitFields 0 Fields _ _ Hfi E1). }
    rewrite Pln_Write. cbn [buf Write]. rewrite Hu.
    replace (buf (Unindent p1)) with (buf p1)
      by (unfold Unindent; now destruct (0 <? indent p1)%Z).
    rewrite Hb. cbn [buf Indent]. rewrite Pln_Write. cbn [buf Write].
    cbn [Fmt.Sprintf Fmt.extra]. cbn. now str_norm.
Qed.

(** C7.  From a depth that is not negative and at which the nesting of the
    tree does not overflow the counter, an emitter that returns returns at
    the depth it was called at: statement, declaration and file.  A block
    and a struct emit what they hold one level deeper and write their closing
    brace at the depth at which they were opened. *)
Theorem indent_restored_braces_closed :
  (forall s p p',
     fits p (nest s) -> VisitStmt U p s = Ok p' -> indent p' = indent p)
  /\ (forall d p p',
        fits p (nestD d) -> VisitDecl U p d = Ok p' -> indent p' = indent p)
  /\ (forall f p p',
        fits p (nestDs (Decls f)) -> VisitFile U p f = Ok p' ->
        indent p' = indent p)
  /\ (forall l p p',
        fits p (S (nests l)) -> VisitBlockStmt U p l = Ok p' ->
        indent p' = indent p /\
        exists q, VisitStmts U (blank (indent p + 1)) l = Ok q /\
                  buf p' = buf p ++ "{" ++ nl ++ buf q
                           ++ indentation (indent p) ++ "}" ++ nl)
  /\ (forall Name Fields p p',
        fits p 1 ->
        VisitSpec U p (TypeSpec Name (StructType Fields)) = Ok p' ->
        indent p' = indent p /\
        exists q, VisitFields (blank (indent p + 1)) Fields = Ok q /\
                  buf p' = buf p ++ indentation (indent p) ++ "struct "
                           ++ Name ++ " {" ++ nl ++ buf q
                           ++ indentation (indent p) ++ "};" ++ nl).
Proof.
  split; [|split; [|split; [|split]]].
  - intros s. exact (balanced_VisitStmt U s).
  - intros d. exact (balanced_VisitDecl U d).
  - intros f. exact (balanced_VisitDecls U (Decls f)).
  - exact VisitBlockStmt_braces.
  - exact struct_braces.
Qed.

(** C8.  What the pass writes for a file is a function of the file and of
    the depth it starts at: two runs from printers of the same depth end the
    same way and, when they return, have appended the same text, whatever
    the buffers held.  A second run on the printer a first run has left
    appends the text of the first run once more. *)
Theorem emission_deterministic (f : File) :
  (forall p1 p2,
     indent p1 = indent p2 ->
     match VisitFile U p1 f, VisitFile U p2 f with
     | Ok q1, Ok q2 =>
         exists out, buf q1 = buf p1 ++ out /\ buf q2 = buf p2 ++ out /\
                     indent q1 = indent q2
     | Stop e1, Stop e2 => e1 = e2
     | _, _ => False
     end)
  /\ (forall q1 q2,
        fits NewPrinter (nestDs (Decls f)) ->
        VisitFile U NewPrinter f = Ok q1 -> VisitFile U q1 f = Ok q2 ->
        emit U f = Ok (buf q1) /\ buf q2 = buf q1 ++ buf q1).
Proof.
  pose proof (framed_VisitDecls U (Decls f)) as Hfr.
  split.
  - intros p1 p2 Hd. unfold VisitFile.
    rewrite (Hfr p1), (Hfr p2), Hd.
    destruct (VisitDecls U (blank (indent p2)) (Decls f)) as [q|e]; simpl.
    + now exists (buf q).
    + reflexivity.
  - intros q1 q2 Hf E1 E2. split.
    + unfold emit. now rewrite E1.
    + pose proof (balanced_VisitDecls U (Decls f) _ _ Hf E1) as Hq.
      unfold VisitFile in *. rewrite (Hfr q1), Hq in E2.
      change (blank (indent NewPrinter)) with NewPrinter in E2.
      rewrite E1 in E2. simpl in E2. now injection E2 as <-.
Qed.

End Claims.

(** * The claims on concrete trees *)

(** C1, at the loop [for i := 0; i < n; i++ {}]. *)
Lemma For_header_composition_witness :
  simple_text (AssignStmt [Ident "i"] DEFINE [BasicLit "0"]) = Some "i := 0"
  /\ simple_text (IncDecStmt (Ident "i") INC) = Some "i++"
  /\ Str.clean_end "i++" (";" ++ Str.nl) = true
  /\ VisitStmt Unquote_plain NewPrinter (for_i_n [])
     = VisitBlockStmt Unquote_plain
         (Write NewPrinter ("for (" ++ "i := 0" ++ "; " ++ "(i<n)" ++ "; "
                            ++ "i++" ++ ") ")) [].
Proof.
  split; [reflexivity | split; [reflexivity | split; [reflexivity|]]].
  exact (proj1 (proj2 (For_header_composition Unquote_plain
                         (AssignStmt [Ident "i"] DEFINE [BasicLit "0"])
                         (IncDecStmt (Ident "i") INC)
                         (BinaryExpr (Ident "i") LSS (Ident "n")) []
                         NewPrinter))
           "i := 0" "i++" eq_refl eq_refl eq_refl).
Defined.

(** C1 as stated fails: the header written for the fixed loop is not the
    text [for (i := 0 (i)<(n); i++)] of the specification. *)
Lemma For_header_spec_literal_refuted :
  VisitStmt Unquote_plain NewPrinter (for_i_n [])
  = Ok (mkPrinter ("for (i := 0; (i<n); i++) {" ++ Str.nl ++ "}" ++ Str.nl) 0)
  /\ String.prefix "for (i := 0 (i)<(n); i++)"
       ("for (i := 0; (i<n); i++) {" ++ Str.nl ++ "}" ++ Str.nl) = false.
Proof. split; reflexivity. Qed.

(** C2 as stated fails: [a, b = 1, 2], [return a, b] and the field
    [a, b int] are emitted, as [a = 1;], [return a;] and [int a]. *)
Lemma multi_value_not_fatal :
  VisitStmt Unquote_plain NewPrinter
    (AssignStmt [Ident "a"; Ident "b"] ASSIGN [BasicLit "1"; BasicLit "2"])
  = Ok (mkPrinter ("a = 1;" ++ Str.nl) 0)
  /\ VisitStmt Unquote_plain NewPrinter (ReturnStmt [Ident "a"; Ident "b"])
     = Ok (mkPrinter ("return a;" ++ Str.nl) 0)
  /\ field (mkField ["a"; "b"] (Ident "int")) = Ok "int a"
  /\ is_fatal
       (VisitStmt Unquote_plain NewPrinter
          (AssignStmt [Ident "a"; Ident "b"] ASSIGN [BasicLit "1"; BasicLit "2"]))
     = false.
Proof. repeat split. Qed.

(** C4, at [func f() (a, b int) {}], [func f() {}] and [func f() int {}]. *)
Lemma VisitFunction_results_witness :
  (2 <= NumFields [mkField ["a"; "b"] (Ident "int")]
   /\ VisitFunction Unquote_plain NewPrinter "f" []
        [mkField ["a"; "b"] (Ident "int")] (Some [])
      = Stop FatalNumberOfReturn)
  /\ (NumFields [] = 0
      /\ VisitFunction Unquote_plain NewPrinter "f" [] [] (Some [])
         = Ok (mkPrinter ("void f()" ++ Str.nl ++ "{" ++ Str.nl
                          ++ "}" ++ Str.nl) 0))
  /\ (NumFields [mkField [] (Ident "int")] = 1
      /\ exists f rest,
           [mkField [] (Ident "int")] = f :: rest
           /\ forall l,
                VisitFunction Unquote_plain NewPrinter "f" []
                  [mkField [] (Ident "int")] (Some l)
                = bind (params_text []) (fun params =>
                    VisitBlockStmt Unquote_plain
                      (Write NewPrinter
                         (indentation (indent NewPrinter)
                          ++ expr (Field_Type f) ++ " " ++ "f"
                          ++ "(" ++ params ++ ")" ++ Str.nl)) l)).
Proof.
  split; [|split].
  - split; [simpl; lia|].
    apply (proj1 (VisitFunction_results Unquote_plain NewPrinter "f" []
                    [mkField ["a"; "b"] (Ident "int")])).
    simpl; lia.
  - split; [reflexivity|].
    rewrite (proj1 (proj2 (VisitFunction_results Unquote_plain NewPrinter
                             "f" [] [])) eq_refl []).
    reflexivity.
  - split; [reflexivity|].
    exact (proj2 (proj2 (VisitFunction_results Unquote_plain NewPrinter "f" []
                           [mkField [] (Ident "int")])) eq_refl).
Defined.

(** C6, at the parenthesised expression [(a + b)]. *)
Lemma unrecognized_expr_silent_witness :
  recognized (ParenExpr (BinaryExpr (Ident "a") ADD (Ident "b"))) = false
  /\ expr (ParenExpr (BinaryExpr (Ident "a") ADD (Ident "b"))) = "".
Proof.
  split; [reflexivity|].
  exact (proj1 (proj2 (unrecognized_expr_silent
                         (ParenExpr (BinaryExpr (Ident "a") ADD (Ident "b")))
                         eq_refl))).
Defined.

(** C7, at [if c { x++ } else { y }] emitted from depth 1. *)
Lemma indent_restored_braces_closed_witness :
  fits (mkPrinter "" 1)
    (nest (IfStmt (Ident "c") [IncDecStmt (Ident "x") INC]
             (Some (BlockStmt [ExprStmt (Ident "y")]))))
  /\ (forall p',
        VisitStmt Unquote_plain (mkPrinter "" 1)
          (IfStmt (Ident "c") [IncDecStmt (Ident "x") INC]
             (Some (BlockStmt [ExprStmt (Ident "y")]))) = Ok p' ->
        indent p' = 1%Z)
  /\ is_ok (VisitStmt Unquote_plain (mkPrinter "" 1)
              (IfStmt (Ident "c") [IncDecStmt (Ident "x") INC]
                 (Some (BlockStmt [ExprStmt (Ident "y")])))) = true
  /\ fits (mkPrinter "" 1) (S (nests [ExprStmt (Ident "y")]))
  /\ (exists p',
        VisitBlockStmt Unquote_plain (mkPrinter "" 1) [ExprStmt (Ident "y")]
        = Ok p'
        /\ indent p' = 1%Z
        /\ exists q,
             VisitStmts Unquote_plain (blank (1 + 1)) [ExprStmt (Ident "y")]
             = Ok q
             /\ buf p' = "" ++ "{" ++ Str.nl ++ buf q
                         ++ indentation 1 ++ "}" ++ Str.nl)
  /\ fits NewPrinter 1
  /\ (exists p',
        VisitSpec Unquote_plain NewPrinter
          (TypeSpec "Point" (StructType [mkField ["x"] (Ident "int")]))
        = Ok p'
        /\ indent p' = 0%Z
        /\ exists q,
             VisitFields (blank (0 + 1)) [mkField ["x"] (Ident "int")] = Ok q
             /\ buf p' = "" ++ indentation 0 ++ "struct " ++ "Point" ++ " {"
                         ++ Str.nl ++ buf q ++ indentation 0 ++ "};" ++ Str.nl).
Proof.
  assert (FB : fits (mkPrinter "" 1) (S (nests [ExprStmt (Ident "y")]))).
  { unfold fits. simpl. lia. }
  assert (FS : fits NewPrinter 1).
  { unfold fits. simpl. lia. }
  assert (F : fits (mkPrinter "" 1)
                (nest (IfStmt (Ident "c") [IncDecStmt (Ident "x") INC]
                         (Some (BlockStmt [ExprStmt (Ident "y")]))))).
  { unfold fits. simpl. lia. }
  split; [exact F|]. split.
  { intros p' E.
    exact (proj1 (indent_restored_braces_closed Unquote_plain) _ _ p' F E). }
  split; [reflexivity|]. split; [exact FB|]. split.
  { eexists. split; [reflexivity|].
    exact (proj1 (proj2 (proj2 (proj2
             (indent_restored_braces_closed Unquote_plain))))
             [ExprStmt (Ident "y")] (mkPrinter "" 1) _ FB eq_refl). }
  split; [exact FS|].
  eexists. split; [reflexivity|].
  exact (proj2 (proj2 (proj2 (proj2
           (indent_restored_braces_closed Unquote_plain))))
           "Point" [mkField ["x"] (Ident "int")] NewPrinter _ FS eq_refl).
Defined.

(** C8, at a file with an import and a function, emitted into an empty
    buffer and into one that holds text. *)
Lemma emission_deterministic_witness :
  indent NewPrinter = indent (mkPrinter "/* goc */" 0)
  /\ match
       VisitFile Unquote_plain NewPrinter
         (mkFile [GenDecl [ImportSpec (String dquote ("os" ++ String dquote ""))];
                  FuncDecl "main" [] [] (Some [ExprStmt (CallExpr (Ident "f") [])])]),
       VisitFile Unquote_plain (mkPrinter "/* goc */" 0)
         (mkFile [GenDecl [ImportSpec (String dquote ("os" ++ String dquote ""))];
                  FuncDecl "main" [] [] (Some [ExprStmt (CallExpr (Ident "f") [])])])
     with
     | Ok q1, Ok q2 =>
         exists out, buf q1 = buf NewPrinter ++ out
                     /\ buf q2 = buf (mkPrinter "/* goc */" 0) ++ out
                     /\ indent q1 = indent q2
     | Stop e1, Stop e2 => e1 = e2
     | _, _ => False
     end
  /\ fits NewPrinter
       (nestDs [GenDecl [ImportSpec (String dquote ("os" ++ String dquote ""))];
                FuncDecl "main" [] [] (Some [ExprStmt (CallExpr (Ident "f") [])])])
  /\ exists q1 q2,
       VisitFile Unquote_plain NewPrinter
         (mkFile [GenDecl [ImportSpec (String dquote ("os" ++ String dquote ""))];
                  FuncDecl "main" [] [] (Some [ExprStmt (CallExpr (Ident "f") [])])])
       = Ok q1
       /\ VisitFile Unquote_plain q1
            (mkFile [GenDecl [ImportSpec (String dquote ("os" ++ String dquote ""))];
                     FuncDecl "main" [] [] (Some [ExprStmt (CallExpr (Ident "f") [])])])
          = Ok q2
       /\ buf q2 = buf q1 ++ buf q1.
Proof.
  assert (F : fits NewPrinter
       (nestDs [GenDecl [ImportSpec (String dquote ("os" ++ String dquote ""))];
                FuncDecl "main" [] [] (Some [ExprStmt (CallExpr (Ident "f") [])])])).
  { unfold fits. simpl. lia. }
  split; [reflexivity|].
  split; [|split; [exact F|]];
    [|eexists; eexists; split; [reflexivity | split; [reflexivity|]];
      exact (proj2 (proj2 (emission_deterministic Unquote_plain
                      (mkFile [GenDecl [ImportSpec (String dquote ("os" ++ String dquote ""))];
                               FuncDecl "main" [] []
                                 (Some [ExprStmt (CallExpr (Ident "f") [])])]))
                      _ _ F eq_refl eq_refl))].
  exact (proj1 (emission_deterministic Unquote_plain
                  (mkFile [GenDecl [ImportSpec (String dquote ("os" ++ String dquote ""))];
                           FuncDecl "main" [] []
                             (Some [ExprStmt (CallExpr (Ident "f") [])])]))
           NewPrinter (mkPrinter "/* goc */" 0) eq_refl).
Defined.

(** * Further properties of the emitters *)

(** ** The printer *)

Module PrinterProps.
Import Str StrFacts PrinterFacts BalanceFacts.

Lemma length_rep (n : nat) (s : string) :
  String.length (rep n s) = n * String.length s.
Proof.
  induction n as [|n IH]; [reflexivity|].
  cbn [rep]. rewrite length_app, IH. lia.
Qed.

(** [Unindent] never goes below zero: at a depth that is not positive it
    does nothing, at a positive depth it takes one level off; the buffer is
    never touched. *)
Lemma Unindent_clamped (p : Printer) :
  ((indent p <= 0)%Z -> Unindent p = p)
  /\ ((0 < indent p)%Z -> Unindent p = mkPrinter (buf p) (indent p - 1))
  /\ buf (Unindent p) = buf p
  /\ ((0 <= indent p)%Z -> (0 <= indent (Unindent p))%Z).
Proof.
  unfold Unindent. destruct (Z.ltb_spec 0 (indent p)); cbn [buf indent];
    repeat split; intros; try reflexivity; lia.
Qed.

(** [Indent] followed by [Unindent] gives the printer back, at every depth
    from 0 up to the last one before the counter overflows; at that last
    depth [Indent] wraps to the least integer, which [Unindent] leaves. *)
Theorem Indent_Unindent_round_trip (p : Printer) :
  ((0 <= indent p < 2 ^ 63 - 1)%Z -> Unindent (Indent p) = p)
  /\ (indent p = (2 ^ 63 - 1)%Z ->
      Unindent (Indent p) = mkPrinter (buf p) (- 2 ^ 63)).
Proof.
  destruct p as [b d]. unfold Unindent, Indent. cbn [buf indent]. split.
  - intros H. rewrite wrap_int_small by lia.
    destruct (Z.ltb_spec 0 (d + 1)); [|lia]. f_equal. lia.
  - intros ->. reflexivity.
Qed.

(** A line written by [Pln] is four spaces per level of depth, the formatted
    text and a line break, appended to the buffer; at a depth that is not
    positive there is no indentation; the depth is unchanged. *)
Theorem Pln_line (p : Printer) (f : string) (l : list string) :
  Pln p f l = Write p (indentation (indent p) ++ Fmt.Sprintf f l ++ nl)
  /\ String.length (indentation (indent p)) = 4 * Z.to_nat (indent p)
  /\ ((indent p <= 0)%Z -> Pln p f l = Write p (Fmt.Sprintf f l ++ nl))
  /\ indent (Pln p f l) = indent p.
Proof.
  split; [apply Pln_Write | split; [|split]].
  - unfold indentation. rewrite length_rep. cbn [String.length]. lia.
  - intros H. rewrite Pln_Write. unfold indentation.
    replace (Z.to_nat (indent p)) with 0 by lia. reflexivity.
  - now rewrite Pln_Write.
Qed.

End PrinterProps.

(** ** The expression emitter *)

Section ExprInduction.

Variable PE : Expr -> Prop.

Hypothesis HBasicLit : forall v, PE (BasicLit v).
Hypothesis HIdent : forall name, PE (Ident name).
Hypothesis HSelector : forall X Sel, PE X -> PE (SelectorExpr X Sel).
Hypothesis HBinary : forall X Op Y, PE X -> PE Y -> PE (BinaryExpr X Op Y).
Hypothesis HUnary : forall Op X, PE X -> PE (UnaryExpr Op X).
Hypothesis HStar : forall X, PE X -> PE (StarExpr X).
Hypothesis HIndex : forall X Index, PE X -> PE Index -> PE (IndexExpr X Index).
Hypothesis HCall : forall Fun Args,
  PE Fun -> Forall PE Args -> PE (CallExpr Fun Args).
Hypothesis HOther : forall n, recognized n = false -> PE n.

(** Induction over expressions that reaches the arguments of a call. *)
Lemma Expr_nested_ind : forall n, PE n.
Proof.
  fix FE 1. intros n.
  destruct n;
    try (apply HOther; reflexivity).
  - apply HBasicLit.
  - apply HIdent.
  - apply HSelector, FE.
  - apply HBinary; apply FE.
  - apply HUnary, FE.
  - apply HStar, FE.
  - apply HIndex; apply FE.
  - apply HCall; [apply FE|].
    induction Args as [|a Args IH]; constructor; [apply FE | exact IH].
Qed.

End ExprInduction.

Module ExprProps.
Import Str StrFacts PrinterFacts ExprFacts.

Lemma expr_via_Write (n : Expr) (t : string) :
  (forall p, VisitExpr p n = Write p t) -> expr n = t.
Proof. intros H. unfold expr, String_. now rewrite H. Qed.

(** The expression emitter appends the fragment of the expression to the
    buffer, whatever the buffer holds, and leaves the depth alone. *)
Theorem VisitExpr_appends_fragment (p : Printer) (n : Expr) :
  buf (VisitExpr p n) = buf p ++ expr n
  /\ indent (VisitExpr p n) = indent p
  /\ expr n = buf (VisitExpr (mkPrinter "" (indent p)) n).
Proof.
  rewrite !VisitExpr_Write. cbn [buf indent Write]. repeat split.
Qed.

Lemma expr_BasicLit (v : string) : expr (BasicLit v) = v.
Proof.
  apply expr_via_Write. intros p. cbn [VisitExpr].
  now rewrite P_Write, Sprintf_s.
Qed.

Lemma expr_Ident (name : string) :
  mem Fmt.percent name = false -> expr (Ident name) = name.
Proof.
  intros H. apply expr_via_Write. intros p. cbn [VisitExpr].
  now rewrite P_Write, Sprintf_plain.
Qed.

Lemma expr_SelectorExpr (X : Expr) (Sel : string) :
  expr (SelectorExpr X Sel) = expr X ++ "." ++ Sel.
Proof.
  apply expr_via_Write. intros p. cbn [VisitExpr].
  now rewrite VisitExpr_Write, P_Write, Write_Write, Sprintf_sel.
Qed.

Lemma expr_UnaryExpr (Op : Token) (X : Expr) :
  expr (UnaryExpr Op X) = Fmt.Sprintf (Token_String Op) [] ++ expr X.
Proof.
  apply expr_via_Write. intros p. cbn [VisitExpr].
  now rewrite VisitExpr_Write, P_Write, Write_Write.
Qed.

Lemma expr_StarExpr (X : Expr) : expr (StarExpr X) = "*" ++ expr X.
Proof.
  apply expr_via_Write. intros p. cbn [VisitExpr].
  now rewrite VisitExpr_Write, P_Write, Write_Write.
Qed.

Lemma expr_IndexExpr (X Index : Expr) :
  expr (IndexExpr X Index) = expr X ++ "[" ++ expr Index ++ "]".
Proof.
  apply expr_via_Write. intros p. cbn [VisitExpr].
  rewrite !VisitExpr_Write, !P_Write, !Write_Write.
  f_equal; try (cbn; now str_norm).
Qed.

Lemma expr_CallExpr (Fun : Expr) (Args : list Expr) :
  expr (CallExpr Fun Args)
  = expr Fun ++ "(" ++ Join (map expr Args) ", " ++ ")".
Proof.
  apply expr_via_Write. intros p. cbn [VisitExpr].
  rewrite VisitExpr_Write, P_Write, Write_Write, Sprintf_call.
  f_equal; try reflexivity.
Qed.

(** The fragments of the recognized kinds are composed from the fragments of
    their parts: a literal is its text as it is, a name free of [%] is the
    name, a selector, a unary operator, a dereference, an index and a call
    put the texts of their parts side by side, the arguments of a call
    separated by a comma and a space. *)
Theorem expr_fragments :
  (forall v, expr (BasicLit v) = v)
  /\ (forall name, mem Fmt.percent name = false -> expr (Ident name) = name)
  /\ (forall X Sel, expr (SelectorExpr X Sel) = expr X ++ "." ++ Sel)
  /\ (forall Op X,
        mem Fmt.percent (Token_String Op) = false ->
        expr (UnaryExpr Op X) = Token_String Op ++ expr X)
  /\ (forall X, expr (StarExpr X) = "*" ++ expr X)
  /\ (forall X Index, expr (IndexExpr X Index)
                      = expr X ++ "[" ++ expr Index ++ "]")
  /\ (forall Fun Args,
        expr (CallExpr Fun Args)
        = expr Fun ++ "(" ++ Join (map expr Args) ", " ++ ")").
Proof.
  split; [|split; [|split; [|split; [|split; [|split]]]]].
  - exact expr_BasicLit.
  - exact expr_Ident.
  - exact expr_SelectorExpr.
  - intros Op X H. now rewrite expr_UnaryExpr, Sprintf_plain.
  - exact expr_StarExpr.
  - exact expr_IndexExpr.
  - exact expr_CallExpr.
Qed.


End ExprProps.

Module LineProps.
Import Str StrFacts PrinterFacts ExprFacts ExprProps.

Lemma mem_app (c : ascii) (s t : string) :
  mem c (s ++ t) = mem c s || mem c t.
Proof.
  induction s as [|d s IH]; [reflexivity|].
  cbn [append mem]. now rewrite IH, orb_assoc.
Qed.

(** The error texts of [fmt] hold no line break unless the verb is one. *)
Lemma Sprintf_nl_free_aux (f : string) :
  (mem nlc f = false -> mem nlc (Fmt.Sprintf f []) = false)
  /\ (forall c, mem nlc (String c f) = false ->
                mem nlc (Fmt.Sprintf (String c f) []) = false).
Proof.
  induction f as [|d f [IH1 IH2]].
  - split; [reflexivity|]. intros c H. cbn [mem] in H.
    apply orb_false_elim in H as [Hc _].
    cbn [Fmt.Sprintf]. destruct (c =? Fmt.percent)%char; [reflexivity|].
    cbn [mem Fmt.extra]. now rewrite Hc.
  - split; [intros H; now apply IH2|].
    intros c H. cbn [mem] in H.
    apply orb_false_elim in H as [Hc H]. apply orb_false_elim in H as [Hd H].
    cbn [Fmt.Sprintf]. destruct (c =? Fmt.percent)%char.
    + destruct (d =? Fmt.percent)%char.
      * cbn [mem]. rewrite (IH1 H). reflexivity.
      * unfold Fmt.missingArg. rewrite mem_app. cbn [append mem].
        rewrite Hd, (IH1 H). reflexivity.
    + cbn [mem]. rewrite Hc. cbn [orb]. apply IH2. cbn [mem].
      now rewrite Hd, H.
Qed.

Lemma Sprintf_nl_free (f : string) :
  mem nlc f = false -> mem nlc (Fmt.Sprintf f []) = false.
Proof. apply Sprintf_nl_free_aux. Qed.

Lemma Token_nl_free (Op : Token) :
  mem nlc (Fmt.Sprintf (Token_String Op) []) = false.
Proof. destruct Op; reflexivity. Qed.

Lemma Join_nl_free (l : list string) :
  Forall (fun s => mem nlc s = false) l -> mem nlc (Join l ", ") = false.
Proof.
  induction 1 as [|s l Hs Hl IH]; [reflexivity|].
  destruct l as [|t l]; [exact Hs|].
  change (Join (s :: t :: l) ", ") with (s ++ ", " ++ Join (t :: l) ", ").
  rewrite !mem_app, Hs, IH. reflexivity.
Qed.

(** A fragment is a single line: when no literal, name or selector of the
    expression holds a line break, neither does its fragment. *)
Theorem expr_single_line (n : Expr) :
  nl_free n = true -> mem nlc (expr n) = false.
Proof.
  revert n.
  apply (Expr_nested_ind
           (fun n => nl_free n = true -> mem nlc (expr n) = false)).
  - intros v H. rewrite expr_BasicLit. cbn [nl_free] in H.
    now apply negb_true_iff.
  - intros name H. cbn [nl_free] in H. apply negb_true_iff in H.
    unfold expr, String_. cbn [VisitExpr]. rewrite P_Write. cbn [buf Write append].
    now apply Sprintf_nl_free.
  - intros X Sel IH H. cbn [nl_free] in H. apply andb_true_iff in H as [HX HS].
    apply negb_true_iff in HS.
    rewrite expr_SelectorExpr, !mem_app, (IH HX), HS. reflexivity.
  - intros X Op Y IHX IHY H. cbn [nl_free] in H.
    apply andb_true_iff in H as [HX HY].
    rewrite expr_BinaryExpr. cbn [append mem].
    rewrite !mem_app, (IHX HX), (IHY HY), Token_nl_free. reflexivity.
  - intros Op X IH H. cbn [nl_free] in H.
    rewrite expr_UnaryExpr, mem_app, Token_nl_free. now apply IH.
  - intros X IH H. cbn [nl_free] in H.
    rewrite expr_StarExpr. cbn [append mem]. now apply IH.
  - intros X Index IHX IHI H. cbn [nl_free] in H.
    apply andb_true_iff in H as [HX HI].
    rewrite expr_IndexExpr, !mem_app, (IHX HX), (IHI HI). reflexivity.
  - intros Fun Args IHF IHA H. cbn [nl_free] in H.
    apply andb_true_iff in H as [HF HA].
    rewrite expr_CallExpr, !mem_app, (IHF HF), Join_nl_free; [reflexivity|].
    apply Forall_map. rewrite forallb_forall in HA.
    rewrite Forall_forall in *. intros a Ha. apply IHA; auto.
  - intros n H _. destruct n; try discriminate H; reflexivity.
Qed.

End LineProps.

(** ** Statements and blocks *)

Section StmtProps.
Import Str StrFacts PrinterFacts ExprFacts FrameFacts BalanceFacts.

Variable U : string -> string.

Lemma VisitStmts_app (l1 l2 : list Stmt) (p : Printer) :
  VisitStmts U p (l1 ++ l2)
  = bind (VisitStmts U p l1) (fun p => VisitStmts U p l2).
Proof.
  revert p. induction l1 as [|s l1 IH]; intros p; [reflexivity|].
  cbn [VisitStmts List.app]. destruct (VisitStmt U p s); [apply IH | reflexivity].
Qed.

Lemma is_ok_bind_l {A B : Type} (m : Res A) (k : A -> Res B) :
  is_ok m = false -> is_ok (bind m k) = false.
Proof. destruct m; [discriminate | reflexivity]. Qed.

Lemma is_ok_bind_r {A B : Type} (m : Res A) (k : A -> Res B) :
  (forall a, is_ok (k a) = false) -> is_ok (bind m k) = false.
Proof. intros H. destruct m; [apply H | reflexivity]. Qed.


(** A declaration that stops stops the pass, wherever it stands. *)
Lemma emit_stops (d : Decl) (ds1 ds2 : list Decl) :
  (forall q, is_ok (VisitDecl U q d) = false) ->
  is_ok (emit U (mkFile (ds1 ++ d :: ds2))) = false.
Proof.
  intros H. unfold emit, VisitFile. cbn [Decls]. rewrite VisitDecls_app.
  apply is_ok_bind_l, is_ok_bind_r. intros q. cbn [VisitDecls].
  now apply is_ok_bind_l.
Qed.


(** A statement of a kind without a case is skipped without a word: it
    writes nothing and does not stop, so a block emits as if the statement
    were not there.  A nested block statement is one of them: what it holds
    is dropped. *)
Theorem skipped_stmt_leaves_no_trace (s : Stmt) :
  skipped s = true ->
  (forall p, VisitStmt U p s = Ok p)
  /\ (forall p l1 l2,
        VisitBlockStmt U p (l1 ++ s :: l2) = VisitBlockStmt U p (l1 ++ l2)).
Proof.
  intros H.
  assert (E : forall p, VisitStmt U p s = Ok p)
    by (destruct s; try discriminate H; reflexivity).
  split; [exact E|].
  intros p l1 l2. rewrite !VisitBlockStmt_eq, !VisitStmts_app.
  destruct (VisitStmts U _ l1) as [q|]; [|reflexivity].
  cbn [bind VisitStmts]. now rewrite E.
Qed.

(** An empty block renders as a pair of braces: the opening brace ends the
    line the caller has started, the closing brace is on a line of its own
    at the depth of the block. *)
Theorem empty_block_braces (p : Printer) :
  fits p 1 ->
  VisitBlockStmt U p []
  = Ok (Write p ("{" ++ nl ++ indentation (indent p) ++ "}" ++ nl)).
Proof.
  intros Hf. rewrite VisitBlockStmt_eq. cbn [VisitStmts bind].
  destruct (Indent_fits (Write p ("{" ++ nl)) 0 Hf) as [Hi _].
  assert (Hu : Unindent (Indent (Write p ("{" ++ nl))) = Write p ("{" ++ nl)).
  { destruct Hf as [H0 H1]. destruct p as [b d]. cbn [indent] in *.
    unfold Unindent, Indent, Write. cbn [buf indent].
    rewrite wrap_int_small by lia.
    destruct (Z.ltb_spec 0 (d + 1)); [|lia]. f_equal. lia. }
  rewrite Hu, Pln_Write, Write_Write, indent_Write.
  do 2 f_equal; try (cbn; now str_norm).
Qed.

(** No emitter touches what the buffer already holds: after a statement, a
    block or a declaration, the buffer of the printer starts with the buffer
    it had before. *)
Theorem buffer_prefix_kept (p p' : Printer) :
  (forall s, VisitStmt U p s = Ok p' -> exists out, buf p' = buf p ++ out)
  /\ (forall l, VisitBlockStmt U p l = Ok p' -> exists out, buf p' = buf p ++ out)
  /\ (forall d, VisitDecl U p d = Ok p' -> exists out, buf p' = buf p ++ out).
Proof.
  split; [|split].
  - intros s E.
    destruct (framed_appends _ _ _ (framed_VisitStmt U s) E) as (q & _ & H & _).
    now exists (buf q).
  - intros l E.
    destruct (framed_appends _ _ _
                (framed_VisitBlockStmt U l (framed_all_VisitStmt U l)) E)
      as (q & _ & H & _).
    now exists (buf q).
  - intros d E.
    destruct (framed_appends _ _ _ (framed_VisitDecl U d) E) as (q & _ & H & _).
    now exists (buf q).
Qed.

End StmtProps.

(** ** Control statements *)

Section ControlProps.
Import Str StrFacts PrinterFacts ExprFacts FrameFacts BalanceFacts.

Variable U : string -> string.

(** The text of a block that returns, in full. *)
Lemma VisitBlockStmt_text (l : list Stmt) (p p' : Printer) :
  fits p (S (nests l)) ->
  VisitBlockStmt U p l = Ok p' ->
  exists q, VisitStmts U (blank (indent p + 1)) l = Ok q /\
            p' = Write p ("{" ++ nl ++ buf q
                          ++ indentation (indent p) ++ "}" ++ nl).
Proof.
  intros Hf E.
  destruct (VisitBlockStmt_braces U l p p' Hf E) as (Hi & q & Eq & Hb).
  exists q. split; [exact Eq|].
  destruct p' as [b' d']. cbn [buf indent] in *. unfold Write. now subst.
Qed.

(** An [if] without an [else] branch, or with one that is neither an [if]
    nor a block, is its header and its block: such a branch is ignored.
    With a block as [else] branch, the word [else] is written on a line of
    its own at the depth of the [if], and the opening brace of the branch
    follows on the next line, at the left margin whatever the depth. *)
Theorem if_else_layout (p : Printer) (c : Expr) (b : list Stmt) :
  (forall e, else_ignored e = true ->
     VisitStmt U p (IfStmt c b e)
     = VisitBlockStmt U
         (Write p (indentation (indent p) ++ "if (" ++ expr c ++ ") ")) b)
  /\ (forall l p',
        fits p (nest (IfStmt c b (Some (BlockStmt l)))) ->
        VisitStmt U p (IfStmt c b (Some (BlockStmt l))) = Ok p' ->
        exists q1 q2,
          VisitStmts U (blank (indent p + 1)) b = Ok q1 /\
          VisitStmts U (blank (indent p + 1)) l = Ok q2 /\
          p' = Write p
                 (indentation (indent p) ++ "if (" ++ expr c ++ ") {" ++ nl
                  ++ buf q1
                  ++ indentation (indent p) ++ "}" ++ nl
                  ++ indentation (indent p) ++ "else" ++ nl
                  ++ "{" ++ nl
                  ++ buf q2
                  ++ indentation (indent p) ++ "}" ++ nl)).
Proof.
  split.
  - intros e H. rewrite VisitStmt_If, If_header_text.
    destruct (VisitBlockStmt U _ b) as [q|]; [|reflexivity]. cbn [bind].
    destruct e as [[]|]; try discriminate H; reflexivity.
  - intros l p' Hf E. rewrite VisitStmt_If, If_header_text in E.
    apply bind_Ok_inv in E as (p1 & E1 & E2).
    rewrite nest_If in Hf. change (nest (BlockStmt l)) with (S (nests l)) in Hf.
    set (h := Write p (indentation (indent p) ++ "if (" ++ expr c ++ ") ")) in *.
    assert (Hh : fits h (S (nests b)))
      by (apply fits_same with p; [reflexivity | apply fits_mono with (2 := Hf); lia]).
    destruct (VisitBlockStmt_text b h p1 Hh E1) as (q1 & Eq1 & Hp1).
    rewrite Pln_Write in E2.
    assert (Hi1 : indent p1 = indent p) by (rewrite Hp1; reflexivity).
    assert (Hh2 : fits (Write p1 (indentation (indent p1)
                                  ++ Fmt.Sprintf "else" [] ++ nl)) (S (nests l))).
    { apply fits_same with p; [cbn [indent Write]; now rewrite Hi1|].
      apply fits_mono with (2 := Hf). lia. }
    destruct (VisitBlockStmt_text l _ p' Hh2 E2) as (q2 & Eq2 & Hp').
    cbn [indent Write] in Eq2. rewrite Hi1 in Eq2.
    exists q1, q2. split; [exact Eq1 | split; [exact Eq2|]].
    rewrite Hp', Write_Write, indent_Write, Hi1, Hp1, Write_Write.
    unfold h. rewrite Write_Write, indent_Write. f_equal. cbn. now str_norm.
Qed.

(** A [for] statement without init and post clauses, as [for cond { }] and
    [for { }] are parsed, keeps the separators of the header: the header is
    [for ( <cond>; ) ], and [for ( ; ) ] without a condition.  An init or
    post statement of a kind without a case counts as none. *)
Theorem For_missing_clauses (p : Printer) (b : list Stmt) :
  (forall c,
     VisitStmt U p (ForStmt None c None b)
     = VisitBlockStmt U
         (Write p (indentation (indent p) ++ "for ( " ++ exprN c ++ "; ) ")) b)
  /\ VisitStmt U p (ForStmt None None None b)
     = VisitBlockStmt U (Write p (indentation (indent p) ++ "for ( ; ) ")) b
  /\ (forall i po c,
        skipped i = true -> skipped po = true ->
        VisitStmt U p (ForStmt (Some i) c (Some po) b)
        = VisitStmt U p (ForStmt None c None b)).
Proof.
  assert (G : forall c,
     VisitStmt U p (ForStmt None c None b)
     = VisitBlockStmt U
         (Write p (indentation (indent p) ++ "for ( " ++ exprN c ++ "; ) ")) b).
  { intros c. rewrite VisitStmt_For. cbn [VisitStmtN bind Reset].
    rewrite Pi_for_text. reflexivity. }
  split; [exact G | split].
  - rewrite G. reflexivity.
  - intros i po c Hi Hpo. rewrite !VisitStmt_For. cbn [VisitStmtN].
    replace (VisitStmt U NewPrinter i) with (Ok NewPrinter : Res Printer)
      by (destruct i; try discriminate Hi; reflexivity).
    cbn [bind].
    replace (VisitStmt U (Reset NewPrinter) po)
      with (Ok (Reset NewPrinter) : Res Printer)
      by (destruct po; try discriminate Hpo; reflexivity).
    reflexivity.
Qed.

End ControlProps.

(** ** Declarations *)

Section DeclProps.
Import Str StrFacts PrinterFacts ExprFacts FrameFacts BalanceFacts.

Variable U : string -> string.

Lemma Pln_as (p : Printer) (f : string) (l : list string) (t : string) :
  Fmt.Sprintf f l ++ nl = t ->
  Pln p f l = Write p (indentation (indent p) ++ t).
Proof. intros <-. apply Pln_Write. Qed.

(** The text of a field or parameter: the type and the first name, with the
    star of a pointer type moved behind the pointee; a field without a name,
    as an embedded field or an unnamed parameter is parsed, makes [field]
    index an empty slice. *)
Theorem field_text (name : string) (names : list string) :
  (forall X, field (mkField (name :: names) (StarExpr X))
             = Ok (expr X ++ "* " ++ name))
  /\ (forall T, (forall X, T <> StarExpr X) ->
                field (mkField (name :: names) T) = Ok (expr T ++ " " ++ name))
  /\ (forall T, field (mkField [] T) = Stop PanicIndex).
Proof.
  split; [|split].
  - intros X. unfold field. cbn [Field_Type Field_Names index0 bind].
    f_equal. cbn. now str_norm.
  - intros T H. unfold field. cbn [Field_Type Field_Names index0 bind].
    destruct T; try (f_equal; cbn; now str_norm). now destruct (H T).
  - intros T. unfold field. cbn [Field_Type Field_Names index0 bind].
    destruct T; reflexivity.
Qed.

(** The line of a value declaration: [<elem> <name>[<len>];] for an array
    type, with nothing between the brackets when the type has no length;
    [<pointee>* <name>;] for a pointer type; [<type> <name>;] otherwise,
    with an empty type when none is declared.  Only the first name is
    declared; a declaration without a name panics. *)
Theorem ValueSpec_line (p : Printer) (name : string) (names : list string) :
  (forall Len Elt,
     VisitSpec U p (ValueSpec (name :: names) (Some (ArrayType Len Elt)))
     = Ok (Write p (indentation (indent p)
                    ++ expr Elt ++ " " ++ name ++ "[" ++ exprN Len ++ "];" ++ nl)))
  /\ (forall X,
        VisitSpec U p (ValueSpec (name :: names) (Some (StarExpr X)))
        = Ok (Write p (indentation (indent p)
                       ++ expr X ++ "* " ++ name ++ ";" ++ nl)))
  /\ (forall T, plain_type T = true ->
        VisitSpec U p (ValueSpec (name :: names) T)
        = Ok (Write p (indentation (indent p)
                       ++ exprN T ++ " " ++ name ++ ";" ++ nl)))
  /\ (forall T, VisitSpec U p (ValueSpec [] T) = Stop PanicIndex).
Proof.
  split; [|split; [|split]].
  - intros Len Elt. cbn [VisitSpec index0 bind]. f_equal.
    apply Pln_as. cbn. now str_norm.
  - intros X. cbn [VisitSpec index0 bind]. f_equal.
    apply Pln_as. cbn. now str_norm.
  - intros T H.
    assert (E : VisitSpec U p (ValueSpec (name :: names) T)
                = Ok (Pln p "%s %s;" [exprN T; name]))
      by (destruct T as [[]|]; try discriminate H; reflexivity).
    rewrite E. f_equal. apply Pln_as. cbn. now str_norm.
  - intros T. destruct T as [[]|]; reflexivity.
Qed.

(** An import is always emitted, as one [#include] line of what
    [strconv.Unquote] returns for the path, its error being dropped; a type
    declared as a name is a [typedef] line.  A type declaration whose
    underlying type is neither a name nor a struct (a pointer, an array, a
    function type, a qualified name) writes nothing and does not stop. *)
Theorem ImportSpec_TypeSpec_lines (p : Printer) :
  (forall Path,
     VisitSpec U p (ImportSpec Path)
     = Ok (Write p (indentation (indent p)
                    ++ "#include <" ++ U Path ++ ".h>" ++ nl)))
  /\ (forall Name tName,
        VisitSpec U p (TypeSpec Name (Ident tName))
        = Ok (Write p (indentation (indent p)
                       ++ "typedef " ++ tName ++ " " ++ Name ++ ";" ++ nl)))
  /\ (forall Name T, declarable T = false ->
        VisitSpec U p (TypeSpec Name T) = Ok p).
Proof.
  split; [|split].
  - intros Path. cbn [VisitSpec]. f_equal. apply Pln_as. cbn. now str_norm.
  - intros Name tName. cbn [VisitSpec]. f_equal. apply Pln_as. cbn. now str_norm.
  - intros Name T H. destruct T; try discriminate H; reflexivity.
Qed.

(** The fields of a struct are written one per line, in order, each at the
    depth of the printer and closed by [;]; a field that panics stops the
    struct. *)
Lemma VisitFields_lines (l : list Field) (p : Printer) :
  VisitFields p l
  = bind (fields l) (fun texts =>
      Ok (Write p (field_lines (indent p) texts))).
Proof.
  revert p. induction l as [|f l IH]; intros p.
  - cbn. now rewrite Write_empty.
  - cbn [VisitFields fields]. destruct (field f) as [s|]; [|reflexivity].
    cbn [bind]. rewrite IH. destruct (fields l) as [texts|]; [|reflexivity].
    cbn [bind field_lines]. rewrite Pln_Write, Write_Write, indent_Write.
    do 2 f_equal. cbn. now str_norm.
Qed.

(** A struct declaration in full: the line [struct <name> {], the lines of
    the fields one level deeper, and the line [};], all from the depth of
    the declaration. *)
Theorem struct_text (p : Printer) (Name : string) (Fields : list Field)
  (texts : list string) :
  fits p 1 ->
  fields Fields = Ok texts ->
  VisitSpec U p (TypeSpec Name (StructType Fields))
  = Ok (Write p (indentation (indent p) ++ "struct " ++ Name ++ " {" ++ nl
                 ++ field_lines (indent p + 1) texts
                 ++ indentation (indent p) ++ "};" ++ nl)).
Proof.
  intros Hf Ht. cbn [VisitSpec]. rewrite VisitFields_lines, Ht. cbn [bind].
  assert (Hf' : fits (Pln p "struct %s {" [Name]) 1)
    by (apply fits_same with p; [apply indent_Pln | exact Hf]).
  destruct (Indent_fits _ 0 Hf') as [Hi _]. rewrite indent_Pln in Hi.
  rewrite Hi.
  assert (Hu : Unindent (Write (Indent (Pln p "struct %s {" [Name]))
                           (field_lines (indent p + 1) texts))
               = Write (Pln p "struct %s {" [Name])
                   (field_lines (indent p + 1) texts)).
  { unfold Unindent. cbn [indent Write]. rewrite Hi.
    destruct Hf as [H0 H1].
    destruct (Z.ltb_spec 0 (indent p + 1)); [|lia].
    unfold Write. cbn [buf indent Indent]. rewrite indent_Pln. f_equal. lia. }
  rewrite Hu, !Pln_Write, !Write_Write, !indent_Write. do 2 f_equal.
  cbn. now str_norm.
Qed.

End DeclProps.

(** ** Functions and files *)

Section FileProps.
Import Str StrFacts PrinterFacts ExprFacts FrameFacts BalanceFacts.

Variable U : string -> string.

Lemma rettyp_result_text (rs : list Field) :
  NumFields rs <= 1 ->
  (if Nat.ltb 0 (NumFields rs)
   then bind (index0 rs) (fun f => Ok (expr (Field_Type f)))
   else Ok "void") = Ok (result_text rs).
Proof.
  intros H. destruct rs as [|f rs]; [reflexivity|].
  cbn [index0 bind result_text].
  destruct (Nat.ltb 0 (NumFields (f :: rs))) eqn:E; [reflexivity|].
  apply Nat.ltb_ge in E. cbn [NumFields] in E.
  destruct (List.length (Field_Names f)); lia.
Qed.

Lemma fields_unnamed (T : Expr) (ps1 ps2 : list Field) :
  is_ok (fields (ps1 ++ mkField [] T :: ps2)) = false.
Proof.
  induction ps1 as [|f ps1 IH]; cbn [fields List.app].
  - replace (field (mkField [] T)) with (Stop PanicIndex : Res string)
      by (unfold field; cbn; destruct T; reflexivity).
    reflexivity.
  - apply is_ok_bind_r. intros a. now apply is_ok_bind_l.
Qed.

Lemma NumFields_pos (f : Field) (ps1 ps2 : list Field) :
  NumFields (ps1 ++ f :: ps2) <> 0.
Proof.
  induction ps1 as [|g ps1 IH]; cbn [NumFields List.app].
  - destruct (List.length (Field_Names f)); lia.
  - destruct (List.length (Field_Names g)); lia.
Qed.

Lemma params_text_unnamed (T : Expr) (ps1 ps2 : list Field) :
  is_ok (params_text (ps1 ++ mkField [] T :: ps2)) = false.
Proof.
  unfold params_text.
  destruct (Nat.eqb_spec (NumFields (ps1 ++ mkField [] T :: ps2)) 0) as [N|N].
  - now apply NumFields_pos in N.
  - cbn [negb]. apply is_ok_bind_l, fields_unnamed.
Qed.

(** A function that is emitted, in full: the header line with the return
    type, the name and the parameters, the opening brace alone on the next
    line at the left margin, the statements of the body one level deeper,
    and the closing brace at the depth of the function. *)
Theorem function_text (p p' : Printer) (Name : string)
  (Params Results : list Field) (l : list Stmt) :
  fits p (S (nests l)) ->
  VisitFunction U p Name Params Results (Some l) = Ok p' ->
  exists params q,
    params_text Params = Ok params /\
    VisitStmts U (blank (indent p + 1)) l = Ok q /\
    p' = Write p (indentation (indent p) ++ result_text Results ++ " " ++ Name
                  ++ "(" ++ params ++ ")" ++ nl
                  ++ "{" ++ nl
                  ++ buf q
                  ++ indentation (indent p) ++ "}" ++ nl).
Proof.
  intros Hf E.
  destruct (Nat.ltb 1 (NumFields Results)) eqn:HN.
  { unfold VisitFunction, VisitFunction_over in E. rewrite HN in E. discriminate E. }
  assert (HR : NumFields Results <= 1) by (apply Nat.ltb_ge; exact HN).
  rewrite (VisitFunction_header U p Name Params Results l (result_text Results)
             HN (rettyp_result_text Results HR)) in E.
  apply bind_Ok_inv in E as (params & Ep & E).
  set (h := Write p _) in E.
  assert (Hh : fits h (S (nests l))) by (apply fits_same with p; [reflexivity | exact Hf]).
  destruct (VisitBlockStmt_text U l h p' Hh E) as (q & Eq & Hp').
  exists params, q. split; [exact Ep | split; [exact Eq|]].
  rewrite Hp'. unfold h. rewrite Write_Write, indent_Write. f_equal. now str_norm.
Qed.

(** After the check of the results, a parameter without a name makes
    [VisitFunction] panic on the index, and a function declared without a
    body makes it panic on the [nil] block once the header is written; with
    two results or more the diagnostic of the check comes first. *)
Theorem VisitFunction_panics (p : Printer) (Name : string)
  (Params Results : list Field) :
  NumFields Results <= 1 ->
  (forall e Body, params_text Params = Stop e ->
     VisitFunction U p Name Params Results Body = Stop e)
  /\ (forall T ps1 ps2 Body,
        Params = (ps1 ++ mkField [] T :: ps2)%list ->
        is_ok (VisitFunction U p Name Params Results Body) = false)
  /\ (forall params, params_text Params = Ok params ->
        VisitFunction U p Name Params Results None = Stop PanicNil).
Proof.
  intros HR.
  assert (HN : Nat.ltb 1 (NumFields Results) = false) by (apply Nat.ltb_ge; exact HR).
  assert (G : forall Body,
            VisitFunction U p Name Params Results Body
            = bind (params_text Params) (fun params =>
                match Body with
                | Some l =>
                    VisitBlockStmt U
                      (Pln p "%s %s(%s)" [result_text Results; Name; params]) l
                | None => Stop PanicNil
                end)).
  { intros Body. unfold VisitFunction, VisitFunction_over, params_text.
    rewrite HN, (rettyp_result_text Results HR). reflexivity. }
  split; [|split].
  - intros e Body He. now rewrite G, He.
  - intros T ps1 ps2 Body ->. rewrite G. apply is_ok_bind_l.
    apply params_text_unnamed.
  - intros params Hp. now rewrite G, Hp.
Qed.


(** A declaration of a kind without a case stops the pass with the
    diagnostic of [log.Fatalf], and a general declaration without a spec, as
    [var ()] is parsed, makes [VisitDecl] panic on the index: wherever one
    stands in the file, nothing is emitted, and when the declarations before
    it are emitted the pass ends with its diagnostic. *)
Theorem stopping_declaration_stops_pass (ds1 ds2 : list Decl) :
  is_ok (emit U (mkFile (ds1 ++ BadDecl :: ds2))) = false
  /\ is_ok (emit U (mkFile (ds1 ++ GenDecl [] :: ds2))) = false
  /\ (is_ok (emit U (mkFile ds1)) = true ->
      emit U (mkFile (ds1 ++ BadDecl :: ds2)) = Stop FatalUnsupportedDecl
      /\ emit U (mkFile (ds1 ++ GenDecl [] :: ds2)) = Stop PanicIndex).
Proof.
  split; [now apply emit_stops | split; [now apply emit_stops|]].
  unfold emit, VisitFile. cbn [Decls]. rewrite !VisitDecls_app.
  destruct (VisitDecls U NewPrinter ds1) as [q|]; [|discriminate].
  intros _. split; reflexivity.
Qed.

(** The output follows the order of the declarations: the text of a file is
    the text of its first declarations followed by the text of the
    others. *)
Theorem declaration_order_kept (ds1 ds2 : list Decl) (out1 out2 : string) :
  fits NewPrinter (nestDs ds1) ->
  emit U (mkFile ds1) = Ok out1 ->
  emit U (mkFile ds2) = Ok out2 ->
  emit U (mkFile (ds1 ++ ds2)) = Ok (out1 ++ out2).
Proof.
  unfold emit, VisitFile. cbn [Decls]. intros Hf E1 E2.
  apply bind_Ok_inv in E1 as (q1 & E1 & [= <-]).
  apply bind_Ok_inv in E2 as (q2 & E2 & [= <-]).
  rewrite VisitDecls_app, E1. cbn [bind].
  pose proof (balanced_VisitDecls U ds1 _ _ Hf E1) as Hq.
  rewrite (framed_VisitDecls U ds2 q1), Hq.
  change (blank (indent NewPrinter)) with NewPrinter. rewrite E2.
  reflexivity.
Qed.

End FileProps.

(** ** The minimal variant *)

Module MinimalFacts.
Import Str StrFacts PrinterFacts ExprFacts MinimalEmitter.

Lemma Minimal_VisitExpr_Write (n : Expr) :
  forall p, Minimal.VisitExpr p n = Write p (fragment n).
Proof.
  induction n; intros p; unfold fragment, String_; cbn [Minimal.VisitExpr];
    repeat match goal with
    | IH : forall p, Minimal.VisitExpr p ?X = _ |- _ => rewrite !IH; clear IH
    end; norm.
  all: try (cbn [buf NewPrinter append]; rewrite ?app_assoc; try reflexivity).
  all: now rewrite Write_empty.
Qed.

Lemma Minimal_VisitExprN_Write (n : option Expr) (p : Printer) :
  MinimalEmitter.VisitExprN p n = Write p (fragmentN n).
Proof.
  destruct n as [e|]; unfold fragmentN, String_; cbn [VisitExprN].
  - rewrite !Minimal_VisitExpr_Write. norm. reflexivity.
  - now rewrite Write_empty.
Qed.

Lemma andThen_Ret {A : Type} (m : Out A) : andThen m Ret = m.
Proof. now destruct m. Qed.

Lemma line_empty (p : Printer) (sem : string) : line p NewPrinter sem = p.
Proof. reflexivity. Qed.

Lemma line_text (p sp : Printer) (sem : string) :
  buf sp <> "" ->
  line p sp sem = Write p (indentation (indent p) ++ buf sp ++ sem ++ nl).
Proof.
  intros H. unfold line. destruct (buf sp) as [|c s] eqn:E; [contradiction|].
  cbn [String.length Nat.ltb Nat.leb]. rewrite Pln_Write. f_equal.
  cbn. now str_norm.
Qed.

Lemma params_not_ident (T : Expr) (names : list string)
  (ps1 ps2 : list Field) :
  ident_name T = Conversion ->
  is_ret (params (ps1 ++ mkField names T :: ps2)) = false.
Proof.
  intros C. induction ps1 as [|f ps1 IH]; cbn [params List.app Field_Type].
  - now rewrite C.
  - destruct (ident_name (Field_Type f)); try reflexivity. cbn [andThen].
    destruct (at0 (Field_Names f)); try reflexivity. cbn [andThen].
    destruct (params _); try reflexivity. discriminate IH.
Qed.

End MinimalFacts.

Section MinimalProps.
Import Str StrFacts PrinterFacts ExprFacts MinimalEmitter MinimalFacts.

Variable U : string -> string.

(** On an expression made of the five kinds of the minimal variant, the two
    expression emitters write the same text; the three kinds the later
    version adds (unary operator, dereference, index) are empty fragments in
    the minimal variant. *)
Theorem minimal_expr_agrees (n : Expr) :
  (minimal_kinds n = true ->
   forall p, Minimal.VisitExpr p n = VisitExpr p n)
  /\ (forall Op X, fragment (UnaryExpr Op X) = "")
  /\ (forall X, fragment (StarExpr X) = "")
  /\ (forall X Index, fragment (IndexExpr X Index) = "").
Proof.
  split; [|repeat split].
  revert n.
  apply (Expr_nested_ind
           (fun n => minimal_kinds n = true ->
                     forall p, Minimal.VisitExpr p n = VisitExpr p n)).
  - reflexivity.
  - reflexivity.
  - intros X Sel IH H p. cbn [minimal_kinds] in H. cbn [Minimal.VisitExpr VisitExpr].
    now rewrite IH.
  - intros X Op Y IHX IHY H p. cbn [minimal_kinds] in H.
    apply andb_true_iff in H as [HX HY].
    cbn [Minimal.VisitExpr VisitExpr]. now rewrite IHX, IHY.
  - intros Op X _ H. discriminate H.
  - intros X _ H. discriminate H.
  - intros X Index _ _ H. discriminate H.
  - intros Fun Args IHF IHA H p. cbn [minimal_kinds] in H.
    apply andb_true_iff in H as [HF HA].
    cbn [Minimal.VisitExpr VisitExpr]. rewrite (IHF HF). do 3 f_equal.
    apply map_ext_in. intros a Ha. rewrite forallb_forall in HA.
    rewrite Forall_forall in IHA. now rewrite (IHA a Ha (HA a Ha)).
  - intros n Hn H. destruct n; try discriminate Hn; discriminate H.
Qed.



Lemma while_header_text (p : Printer) (c : option Expr) :
  P (MinimalEmitter.VisitExprN (Pi p "while (" []) c) (")" ++ nl) []
  = Write p (indentation (indent p) ++ "while (" ++ fragmentN c ++ ")" ++ nl).
Proof.
  rewrite Minimal_VisitExprN_Write, Pi_Write, P_Write, !Write_Write.
  f_equal. cbn. now str_norm.
Qed.

(** In the minimal variant a [for] statement is emitted as a [while] loop on
    its condition: the header line [while (<cond>)] and the block.  The init
    and post statements are never read, so a loop comes out the same
    without them. *)
Theorem minimal_for_is_while (p : Printer) (i po : option Stmt)
  (c : option Expr) (b : list Stmt) :
  VisitElem U p (ForStmt i c po b)
  = MinimalEmitter.VisitBlockStmt U
      (Write p (indentation (indent p) ++ "while (" ++ fragmentN c ++ ")" ++ nl))
      b
  /\ VisitElem U p (ForStmt i c po b) = VisitElem U p (ForStmt None c None b).
Proof.
  split; [|reflexivity].
  change (VisitElem U p (ForStmt i c po b))
    with (andThen (MinimalEmitter.VisitBlockStmt U
                     (P (MinimalEmitter.VisitExprN (Pi p "while (" []) c)
                        (")" ++ nl) []) b)
                  (fun p => Ret (line p NewPrinter ""))).
  rewrite while_header_text. apply andThen_Ret.
Qed.

Lemma minimal_if_header_text (p : Printer) (c : Expr) :
  P (Minimal.VisitExpr (Pi p "if (" []) c) (")" ++ nl) []
  = Write p (indentation (indent p) ++ "if (" ++ fragment c ++ ")" ++ nl).
Proof.
  rewrite Minimal_VisitExpr_Write, Pi_Write, P_Write, !Write_Write.
  f_equal. cbn. now str_norm.
Qed.

(** In the minimal variant the [else] branch of an [if] is asserted to be a
    block: an [else if] chain, whose branch is an [if], makes the emitter
    panic once the first block is written, and is never emitted. *)
Theorem minimal_else_if_panics (p : Printer) (c : Expr) (b : list Stmt)
  (s : Stmt) :
  (forall l, s <> BlockStmt l) ->
  is_ret (VisitElem U p (IfStmt c b (Some s))) = false
  /\ (forall q,
        MinimalEmitter.VisitBlockStmt U
          (Write p (indentation (indent p) ++ "if (" ++ fragment c ++ ")" ++ nl))
          b = Ret q ->
        VisitElem U p (IfStmt c b (Some s)) = Conversion).
Proof.
  intros H.
  assert (E : VisitElem U p (IfStmt c b (Some s))
              = andThen (MinimalEmitter.VisitBlockStmt U
                           (Write p (indentation (indent p) ++ "if ("
                                     ++ fragment c ++ ")" ++ nl)) b)
                        (fun _ => Conversion)).
  { rewrite <- minimal_if_header_text.
    change (VisitElem U p (IfStmt c b (Some s)))
      with (andThen (MinimalEmitter.VisitBlockStmt U
                       (P (Minimal.VisitExpr (Pi p "if (" []) c)
                          (")" ++ nl) []) b)
              (fun p =>
                 andThen
                   (match s with
                    | BlockStmt List_ =>
                        MinimalEmitter.VisitBlockStmt U (Pln p "else" []) List_
                    | _ => Conversion
                    end)
                   (fun p => Ret (line p NewPrinter "")))).
    destruct (MinimalEmitter.VisitBlockStmt U _ b) as [q| |]; try reflexivity.
    cbn [andThen]. destruct s; try reflexivity. now destruct (H List_). }
  rewrite E. split.
  - now destruct (MinimalEmitter.VisitBlockStmt U _ b).
  - intros q ->. reflexivity.
Qed.

(** In the minimal variant a statement is written as a line only when its
    rendering is not empty: an expression statement whose expression has no
    case leaves no line at all, not even the [;], and a statement of a kind
    without a case is skipped. *)
Theorem minimal_statement_line (p : Printer) (X : Expr) :
  (fragment X = "" -> VisitElem U p (ExprStmt X) = Ret p)
  /\ (fragment X <> "" ->
      VisitElem U p (ExprStmt X)
      = Ret (Write p (indentation (indent p) ++ fragment X ++ ";" ++ nl)))
  /\ (forall Tok, VisitElem U p (IncDecStmt X Tok) = Ret p)
  /\ (forall r rs,
        VisitElem U p (ReturnStmt (r :: rs))
        = Ret (Write p (indentation (indent p)
                        ++ "return " ++ fragment r ++ ";" ++ nl))).
Proof.
  split; [|split; [|split]].
  - intros H. cbn [VisitElem]. rewrite Minimal_VisitExpr_Write, H.
    reflexivity.
  - intros H. cbn [VisitElem]. rewrite Minimal_VisitExpr_Write.
    rewrite line_text by (cbn [buf Write NewPrinter append]; exact H).
    reflexivity.
  - reflexivity.
  - intros r rs. cbn [VisitElem at0 andThen].
    rewrite Minimal_VisitExpr_Write, P_Write, Write_Write.
    rewrite line_text by (cbn; discriminate).
    do 2 f_equal; try (cbn; now str_norm).
Qed.

(** In the minimal variant a variable declared at the top level is written
    as its type and name only, with no [;] and no line break after it, so
    the next declaration continues the same line; inside a block the same
    declaration is a line closed by [;]. *)
Theorem minimal_var_declaration (p : Printer) (name : string)
  (names : list string) (T : option Expr) (rest : list Spec) :
  mem Fmt.percent name = false ->
  MinimalEmitter.VisitDecl U p (GenDecl (ValueSpec (name :: names) T :: rest))
  = Ret (Write p (fragmentN T ++ " " ++ name))
  /\ VisitElem U p (DeclStmt (GenDecl (ValueSpec (name :: names) T :: rest)))
     = Ret (Write p (indentation (indent p)
                     ++ fragmentN T ++ " " ++ name ++ ";" ++ nl)).
Proof.
  intros H.
  assert (E : forall q,
            MinimalEmitter.VisitDecl U q
              (GenDecl (ValueSpec (name :: names) T :: rest))
            = Ret (Write q (fragmentN T ++ " " ++ name))).
  { intros q. cbn [MinimalEmitter.VisitDecl at0 andThen MinimalEmitter.VisitSpec].
    rewrite Minimal_VisitExprN_Write, !P_Write, !Write_Write,
      (Sprintf_plain name H).
    reflexivity. }
  split; [apply E|].
  cbn [VisitElem]. rewrite E. cbn [andThen].
  rewrite line_text.
  - do 2 f_equal; try (cbn [buf Write NewPrinter]; now str_norm).
  - cbn [buf Write NewPrinter append]. destruct (fragmentN T); discriminate.
Qed.

(** In the minimal variant the type of a parameter and of the result is
    asserted to be a name: a function with a parameter of another type, a
    pointer for one, makes [VisitFunction] panic, wherever the parameter
    stands, unless an earlier check has stopped it. *)
Theorem minimal_function_needs_named_types (p : Printer) (Name : string)
  (T : Expr) (names : list string) (ps1 ps2 Results : list Field)
  (Body : option (list Stmt)) :
  (forall name, T <> Ident name) ->
  is_ret (MinimalEmitter.VisitFunction U p Name
            (ps1 ++ mkField names T :: ps2) Results Body) = false
  /\ (Results = [] ->
      Forall (fun f => is_ret (ident_name (Field_Type f)) = true
                       /\ Field_Names f <> []) ps1 ->
      MinimalEmitter.VisitFunction U p Name
        (ps1 ++ mkField names T :: ps2) Results Body = Conversion).
Proof.
  intros HT.
  assert (C : ident_name T = Conversion)
    by (destruct T; try reflexivity; now destruct (HT Name0)).
  assert (N : Nat.eqb (NumFields (ps1 ++ mkField names T :: ps2)) 0 = false)
    by (apply Nat.eqb_neq, NumFields_pos).
  split.
  - unfold MinimalEmitter.VisitFunction, VisitFunction_over. rewrite N.
    destruct (Nat.ltb 1 (NumFields Results)); [reflexivity|].
    destruct (if Nat.ltb 0 (NumFields Results) then _ else _);
      try reflexivity.
    cbn [andThen negb].
    pose proof (params_not_ident T names ps1 ps2 C) as F.
    destruct (params _); try reflexivity. discriminate F.
  - intros -> Hps. unfold MinimalEmitter.VisitFunction, VisitFunction_over.
    rewrite N. cbn [NumFields Nat.ltb Nat.leb andThen negb].
    assert (F : params (ps1 ++ mkField names T :: ps2) = Conversion).
    { clear N. induction Hps as [|f ps1 [Hf Hn] _ IH]; cbn [params List.app Field_Type].
      - now rewrite C.
      - destruct (ident_name (Field_Type f)); try discriminate Hf.
        cbn [andThen]. destruct (Field_Names f); [contradiction|].
        cbn [at0 andThen]. now rewrite IH. }
    now rewrite F.
Qed.


End MinimalProps.

(** * The further properties on concrete trees *)

Lemma Indent_Unindent_round_trip_witness :
  ((0 <= indent NewPrinter < 2 ^ 63 - 1)%Z
   /\ Unindent (Indent NewPrinter) = NewPrinter)
  /\ (indent (mkPrinter "" (2 ^ 63 - 1)) = (2 ^ 63 - 1)%Z
      /\ Unindent (Indent (mkPrinter "" (2 ^ 63 - 1)))
         = mkPrinter (buf (mkPrinter "" (2 ^ 63 - 1))) (- 2 ^ 63)).
Proof.
  split; split.
  - cbn. lia.
  - apply (proj1 (PrinterProps.Indent_Unindent_round_trip NewPrinter)). cbn. lia.
  - reflexivity.
  - apply (proj2 (PrinterProps.Indent_Unindent_round_trip
                    (mkPrinter "" (2 ^ 63 - 1)))).
    reflexivity.
Defined.

Lemma Pln_line_witness :
  (indent NewPrinter <= 0)%Z
  /\ Pln NewPrinter "}" [] = Write NewPrinter (Fmt.Sprintf "}" [] ++ Str.nl).
Proof.
  split; [cbn; lia|].
  apply (proj1 (proj2 (proj2 (PrinterProps.Pln_line NewPrinter "}" [])))).
  cbn. lia.
Defined.

Lemma expr_fragments_witness :
  (Str.mem Fmt.percent "x" = false /\ expr (Ident "x") = "x")
  /\ (Str.mem Fmt.percent (Token_String SUB) = false
      /\ expr (UnaryExpr SUB (Ident "x")) = Token_String SUB ++ expr (Ident "x")).
Proof.
  split; split.
  - reflexivity.
  - apply (proj1 (proj2 ExprProps.expr_fragments)). reflexivity.
  - reflexivity.
  - apply (proj1 (proj2 (proj2 (proj2 ExprProps.expr_fragments)))).
    reflexivity.
Defined.


Lemma expr_single_line_witness :
  nl_free (CallExpr (Ident "f") [BasicLit "1"; Ident "x"]) = true
  /\ Str.mem nlc (expr (CallExpr (Ident "f") [BasicLit "1"; Ident "x"])) = false.
Proof.
  split; [reflexivity|].
  apply LineProps.expr_single_line. reflexivity.
Defined.

Lemma skipped_stmt_leaves_no_trace_witness :
  skipped (BlockStmt [ExprStmt (Ident "x")]) = true
  /\ VisitStmt Unquote_plain NewPrinter (BlockStmt [ExprStmt (Ident "x")])
     = Ok NewPrinter.
Proof.
  split; [reflexivity|].
  apply (proj1 (skipped_stmt_leaves_no_trace Unquote_plain
                  (BlockStmt [ExprStmt (Ident "x")]) eq_refl)).
Defined.

Lemma empty_block_braces_witness :
  fits (mkPrinter "" 2) 1
  /\ VisitBlockStmt Unquote_plain (mkPrinter "" 2) []
     = Ok (Write (mkPrinter "" 2)
             ("{" ++ Str.nl ++ indentation (indent (mkPrinter "" 2))
              ++ "}" ++ Str.nl)).
Proof.
  assert (F : fits (mkPrinter "" 2) 1) by (unfold fits; cbn; lia).
  split; [exact F|].
  exact (empty_block_braces Unquote_plain (mkPrinter "" 2) F).
Defined.

Lemma buffer_prefix_kept_witness :
  VisitStmt Unquote_plain (mkPrinter "x" 0) (ExprStmt (Ident "y"))
  = Ok (mkPrinter ("x" ++ "y;" ++ Str.nl) 0)
  /\ exists out,
       buf (mkPrinter ("x" ++ "y;" ++ Str.nl) 0) = buf (mkPrinter "x" 0) ++ out.
Proof.
  split; [reflexivity|].
  apply (proj1 (buffer_prefix_kept Unquote_plain (mkPrinter "x" 0)
                  (mkPrinter ("x" ++ "y;" ++ Str.nl) 0))
           (ExprStmt (Ident "y"))).
  reflexivity.
Defined.

Lemma if_else_layout_witness :
  (else_ignored (Some (ExprStmt (Ident "x"))) = true
   /\ VisitStmt Unquote_plain NewPrinter
        (IfStmt (Ident "c") [] (Some (ExprStmt (Ident "x"))))
      = VisitBlockStmt Unquote_plain
          (Write NewPrinter (indentation (indent NewPrinter)
                             ++ "if (" ++ expr (Ident "c") ++ ") ")) [])
  /\ (fits (mkPrinter "" 1)
        (nest (IfStmt (Ident "c") [] (Some (BlockStmt []))))
      /\ exists p',
           VisitStmt Unquote_plain (mkPrinter "" 1)
             (IfStmt (Ident "c") [] (Some (BlockStmt []))) = Ok p'
           /\ exists q1 q2,
                VisitStmts Unquote_plain (blank (1 + 1)) [] = Ok q1 /\
                VisitStmts Unquote_plain (blank (1 + 1)) [] = Ok q2 /\
                p' = Write (mkPrinter "" 1)
                       (indentation 1 ++ "if (" ++ expr (Ident "c") ++ ") {"
                        ++ Str.nl ++ buf q1
                        ++ indentation 1 ++ "}" ++ Str.nl
                        ++ indentation 1 ++ "else" ++ Str.nl
                        ++ "{" ++ Str.nl
                        ++ buf q2
                        ++ indentation 1 ++ "}" ++ Str.nl)).
Proof.
  assert (F : fits (mkPrinter "" 1)
                (nest (IfStmt (Ident "c") [] (Some (BlockStmt [])))))
    by (unfold fits; cbn; lia).
  split; split.
  - reflexivity.
  - apply (proj1 (if_else_layout Unquote_plain NewPrinter (Ident "c") [])).
    reflexivity.
  - exact F.
  - eexists. split; [reflexivity|].
    exact (proj2 (if_else_layout Unquote_plain (mkPrinter "" 1) (Ident "c") [])
             [] _ F eq_refl).
Defined.

Lemma For_missing_clauses_witness :
  skipped EmptyStmt = true
  /\ skipped (SendStmt (Ident "ch") (Ident "v")) = true
  /\ VisitStmt Unquote_plain NewPrinter
       (ForStmt (Some EmptyStmt) (Some (Ident "c"))
          (Some (SendStmt (Ident "ch") (Ident "v"))) [])
     = VisitStmt Unquote_plain NewPrinter
         (ForStmt None (Some (Ident "c")) None []).
Proof.
  split; [reflexivity | split; [reflexivity|]].
  apply (proj2 (proj2 (For_missing_clauses Unquote_plain NewPrinter [])));
    reflexivity.
Defined.

Lemma field_text_witness :
  (forall X, Ident "int" <> StarExpr X)
  /\ field (mkField ["x"; "y"] (Ident "int"))
     = Ok (expr (Ident "int") ++ " " ++ "x").
Proof.
  assert (H : forall X, Ident "int" <> StarExpr X) by (intros X; discriminate).
  split; [exact H|].
  exact (proj1 (proj2 (field_text "x" ["y"])) (Ident "int") H).
Defined.

Lemma ValueSpec_line_witness :
  plain_type (Some (Ident "int")) = true
  /\ VisitSpec Unquote_plain NewPrinter (ValueSpec ["x"; "y"] (Some (Ident "int")))
     = Ok (Write NewPrinter
             (indentation (indent NewPrinter)
              ++ exprN (Some (Ident "int")) ++ " " ++ "x" ++ ";" ++ Str.nl)).
Proof.
  split; [reflexivity|].
  apply (proj1 (proj2 (proj2 (ValueSpec_line Unquote_plain NewPrinter "x" ["y"])))).
  reflexivity.
Defined.

Lemma ImportSpec_TypeSpec_lines_witness :
  declarable (StarExpr (Ident "int")) = false
  /\ VisitSpec Unquote_plain NewPrinter (TypeSpec "P" (StarExpr (Ident "int")))
     = Ok NewPrinter.
Proof.
  split; [reflexivity|].
  apply (proj2 (proj2 (ImportSpec_TypeSpec_lines Unquote_plain NewPrinter))).
  reflexivity.
Defined.

Lemma struct_text_witness :
  fits NewPrinter 1
  /\ fields [mkField ["x"] (Ident "int");
             mkField ["next"] (StarExpr (Ident "Node"))]
     = Ok ["int x"; "Node* next"]
  /\ VisitSpec Unquote_plain NewPrinter
       (TypeSpec "Node"
          (StructType [mkField ["x"] (Ident "int");
                       mkField ["next"] (StarExpr (Ident "Node"))]))
     = Ok (Write NewPrinter
             (indentation (indent NewPrinter) ++ "struct " ++ "Node" ++ " {"
              ++ Str.nl
              ++ field_lines (indent NewPrinter + 1) ["int x"; "Node* next"]
              ++ indentation (indent NewPrinter) ++ "};" ++ Str.nl)).
Proof.
  assert (F : fits NewPrinter 1) by (unfold fits; cbn; lia).
  split; [exact F | split; [reflexivity|]].
  exact (struct_text Unquote_plain NewPrinter "Node"
           [mkField ["x"] (Ident "int");
            mkField ["next"] (StarExpr (Ident "Node"))]
           ["int x"; "Node* next"] F eq_refl).
Defined.

Lemma function_text_witness :
  fits NewPrinter (S (nests [ReturnStmt [Ident "a"]]))
  /\ exists p',
       VisitFunction Unquote_plain NewPrinter "id" [mkField ["a"] (Ident "int")]
         [mkField [] (Ident "int")] (Some [ReturnStmt [Ident "a"]]) = Ok p'
       /\ exists params q,
            params_text [mkField ["a"] (Ident "int")] = Ok params /\
            VisitStmts Unquote_plain (blank (indent NewPrinter + 1))
              [ReturnStmt [Ident "a"]] = Ok q /\
            p' = Write NewPrinter
                   (indentation (indent NewPrinter)
                    ++ result_text [mkField [] (Ident "int")] ++ " " ++ "id"
                    ++ "(" ++ params ++ ")" ++ Str.nl
                    ++ "{" ++ Str.nl
                    ++ buf q
                    ++ indentation (indent NewPrinter) ++ "}" ++ Str.nl).
Proof.
  assert (F : fits NewPrinter (S (nests [ReturnStmt [Ident "a"]])))
    by (unfold fits; cbn; lia).
  split; [exact F|].
  eexists. split; [reflexivity|].
  exact (function_text Unquote_plain NewPrinter _ "id"
           [mkField ["a"] (Ident "int")] [mkField [] (Ident "int")]
           [ReturnStmt [Ident "a"]] F eq_refl).
Defined.

Lemma VisitFunction_panics_witness :
  NumFields [] <= 1
  /\ (params_text [mkField ["a"] (Ident "int")] = Ok "int a"
      /\ VisitFunction Unquote_plain NewPrinter "f"
           [mkField ["a"] (Ident "int")] [] None = Stop PanicNil)
  /\ ([mkField ["a"] (Ident "int"); mkField [] (Ident "int")]
      = ([mkField ["a"] (Ident "int")] ++ mkField [] (Ident "int") :: [])%list
      /\ is_ok (VisitFunction Unquote_plain NewPrinter "f"
                  [mkField ["a"] (Ident "int"); mkField [] (Ident "int")]
                  [] (Some [])) = false)
  /\ (params_text [mkField [] (Ident "int")] = Stop PanicIndex
      /\ VisitFunction Unquote_plain NewPrinter "f"
           [mkField [] (Ident "int")] [] (Some []) = Stop PanicIndex).
Proof.
  assert (N : NumFields [] <= 1) by (cbn; lia).
  split; [exact N|]. split; [|split]; (split; [reflexivity|]).
  - exact (proj2 (proj2 (VisitFunction_panics Unquote_plain NewPrinter "f"
                           [mkField ["a"] (Ident "int")] [] N))
             "int a" eq_refl).
  - exact (proj1 (proj2 (VisitFunction_panics Unquote_plain NewPrinter "f"
                           [mkField ["a"] (Ident "int"); mkField [] (Ident "int")]
                           [] N))
             (Ident "int") [mkField ["a"] (Ident "int")] [] (Some []) eq_refl).
  - exact (proj1 (VisitFunction_panics Unquote_plain NewPrinter "f"
                    [mkField [] (Ident "int")] [] N)
             PanicIndex (Some []) eq_refl).
Defined.

Lemma stopping_declaration_stops_pass_witness :
  is_ok (emit Unquote_plain
           (mkFile [GenDecl [ValueSpec ["x"] (Some (Ident "int"))]])) = true
  /\ emit Unquote_plain
       (mkFile ([GenDecl [ValueSpec ["x"] (Some (Ident "int"))]]
                ++ BadDecl :: [])%list) = Stop FatalUnsupportedDecl
  /\ emit Unquote_plain
       (mkFile ([GenDecl [ValueSpec ["x"] (Some (Ident "int"))]]
                ++ GenDecl [] :: [])%list) = Stop PanicIndex.
Proof.
  split; [reflexivity|].
  exact (proj2 (proj2 (stopping_declaration_stops_pass Unquote_plain
                         [GenDecl [ValueSpec ["x"] (Some (Ident "int"))]] []))
           eq_refl).
Defined.

Lemma declaration_order_kept_witness :
  fits NewPrinter (nestDs [GenDecl [ValueSpec ["x"] (Some (Ident "int"))]])
  /\ emit Unquote_plain (mkFile [GenDecl [ValueSpec ["x"] (Some (Ident "int"))]])
     = Ok ("int x;" ++ Str.nl)
  /\ emit Unquote_plain (mkFile [FuncDecl "f" [] [] (Some [])])
     = Ok ("void f()" ++ Str.nl ++ "{" ++ Str.nl ++ "}" ++ Str.nl)
  /\ emit Unquote_plain
       (mkFile ([GenDecl [ValueSpec ["x"] (Some (Ident "int"))]]
                ++ [FuncDecl "f" [] [] (Some [])])%list)
     = Ok (("int x;" ++ Str.nl)
           ++ ("void f()" ++ Str.nl ++ "{" ++ Str.nl ++ "}" ++ Str.nl)).
Proof.
  assert (F : fits NewPrinter
                (nestDs [GenDecl [ValueSpec ["x"] (Some (Ident "int"))]]))
    by (unfold fits; cbn; lia).
  split; [exact F | split; [reflexivity | split; [reflexivity|]]].
  exact (declaration_order_kept Unquote_plain
           [GenDecl [ValueSpec ["x"] (Some (Ident "int"))]]
           [FuncDecl "f" [] [] (Some [])]
           ("int x;" ++ Str.nl)
           ("void f()" ++ Str.nl ++ "{" ++ Str.nl ++ "}" ++ Str.nl)
           F eq_refl eq_refl).
Defined.

Lemma minimal_expr_agrees_witness :
  minimal_kinds (CallExpr (SelectorExpr (Ident "fmt") "Println")
                   [BinaryExpr (Ident "a") ADD (BasicLit "1")]) = true
  /\ Minimal.VisitExpr NewPrinter
       (CallExpr (SelectorExpr (Ident "fmt") "Println")
          [BinaryExpr (Ident "a") ADD (BasicLit "1")])
     = VisitExpr NewPrinter
         (CallExpr (SelectorExpr (Ident "fmt") "Println")
            [BinaryExpr (Ident "a") ADD (BasicLit "1")]).
Proof.
  split; [reflexivity|].
  exact (proj1 (minimal_expr_agrees
                  (CallExpr (SelectorExpr (Ident "fmt") "Println")
                     [BinaryExpr (Ident "a") ADD (BasicLit "1")]))
           eq_refl NewPrinter).
Defined.

Lemma minimal_else_if_panics_witness :
  (forall l, IfStmt (Ident "d") [] None <> BlockStmt l)
  /\ MinimalEmitter.is_ret
       (MinimalEmitter.VisitElem Unquote_plain NewPrinter
          (IfStmt (Ident "c") [] (Some (IfStmt (Ident "d") [] None))))
     = false
  /\ MinimalEmitter.VisitElem Unquote_plain NewPrinter
       (IfStmt (Ident "c") [] (Some (IfStmt (Ident "d") [] None)))
     = MinimalEmitter.Conversion.
Proof.
  assert (H : forall l, IfStmt (Ident "d") [] None <> BlockStmt l)
    by (intros l; discriminate).
  split; [exact H | split].
  - exact (proj1 (minimal_else_if_panics Unquote_plain NewPrinter (Ident "c")
                    [] (IfStmt (Ident "d") [] None) H)).
  - eapply (proj2 (minimal_else_if_panics Unquote_plain NewPrinter (Ident "c")
                     [] (IfStmt (Ident "d") [] None) H)).
    reflexivity.
Defined.

Lemma minimal_statement_line_witness :
  (MinimalEmitter.fragment (UnaryExpr SUB (Ident "x")) = ""
   /\ MinimalEmitter.VisitElem Unquote_plain NewPrinter
        (ExprStmt (UnaryExpr SUB (Ident "x"))) = MinimalEmitter.Ret NewPrinter)
  /\ (MinimalEmitter.fragment (Ident "x") <> ""
      /\ MinimalEmitter.VisitElem Unquote_plain NewPrinter (ExprStmt (Ident "x"))
         = MinimalEmitter.Ret
             (Write NewPrinter
                (indentation (indent NewPrinter)
                 ++ MinimalEmitter.fragment (Ident "x") ++ ";" ++ Str.nl))).
Proof.
  assert (H : MinimalEmitter.fragment (Ident "x") <> "") by discriminate.
  split; split.
  - reflexivity.
  - exact (proj1 (minimal_statement_line Unquote_plain NewPrinter
                    (UnaryExpr SUB (Ident "x"))) eq_refl).
  - exact H.
  - exact (proj1 (proj2 (minimal_statement_line Unquote_plain NewPrinter
                           (Ident "x"))) H).
Defined.

Lemma minimal_var_declaration_witness :
  Str.mem Fmt.percent "x" = false
  /\ MinimalEmitter.VisitDecl Unquote_plain NewPrinter
       (GenDecl [ValueSpec ["x"] (Some (Ident "int"))])
     = MinimalEmitter.Ret
         (Write NewPrinter
            (MinimalEmitter.fragmentN (Some (Ident "int")) ++ " " ++ "x"))
  /\ MinimalEmitter.VisitElem Unquote_plain NewPrinter
       (DeclStmt (GenDecl [ValueSpec ["x"] (Some (Ident "int"))]))
     = MinimalEmitter.Ret
         (Write NewPrinter
            (indentation (indent NewPrinter)
             ++ MinimalEmitter.fragmentN (Some (Ident "int")) ++ " " ++ "x"
             ++ ";" ++ Str.nl)).
Proof.
  split; [reflexivity|].
  exact (minimal_var_declaration Unquote_plain NewPrinter "x" []
           (Some (Ident "int")) [] eq_refl).
Defined.

Lemma minimal_function_needs_named_types_witness :
  (forall name, StarExpr (Ident "T") <> Ident name)
  /\ MinimalEmitter.is_ret
       (MinimalEmitter.VisitFunction Unquote_plain NewPrinter "f"
          ([mkField ["a"] (Ident "int")]
           ++ mkField ["p"] (StarExpr (Ident "T")) :: [])%list
          [] (Some [])) = false
  /\ [] = ([] : list Field)
  /\ Forall (fun f => MinimalEmitter.is_ret
                        (MinimalEmitter.ident_name (Field_Type f)) = true
                      /\ Field_Names f <> [])
       [mkField ["a"] (Ident "int")]
  /\ MinimalEmitter.VisitFunction Unquote_plain NewPrinter "f"
       ([mkField ["a"] (Ident "int")]
        ++ mkField ["p"] (StarExpr (Ident "T")) :: [])%list
       [] (Some []) = MinimalEmitter.Conversion.
Proof.
  assert (H : forall name, StarExpr (Ident "T") <> Ident name)
    by (intros name; discriminate).
  assert (G : Forall (fun f => MinimalEmitter.is_ret
                                 (MinimalEmitter.ident_name (Field_Type f)) = true
                               /\ Field_Names f <> [])
                [mkField ["a"] (Ident "int")]).
  { constructor; [split; [reflexivity | discriminate] | constructor]. }
  split; [exact H | split; [|split; [reflexivity | split; [exact G|]]]].
  - exact (proj1 (minimal_function_needs_named_types Unquote_plain NewPrinter
                    "f" (StarExpr (Ident "T")) ["p"]
                    [mkField ["a"] (Ident "int")] [] [] (Some []) H)).
  - exact (proj2 (minimal_function_needs_named_types Unquote_plain NewPrinter
                    "f" (StarExpr (Ident "T")) ["p"]
                    [mkField ["a"] (Ident "int")] [] [] (Some []) H)
             eq_refl G).
Defined.

